(** * Range-proof circuit (circuits/range_proof.circom)

    A shallow embedding of the circom templates [Num2Bits], [LessThan],
    [GreaterThan], [GreaterEqThan], [LessEqThan] and [RangeProof], of the
    constraint system each of them generates and of the witness program
    each of them runs, over the prime field the circuit is compiled for. *)

From Stdlib Require Import ZArith List Bool Lia Znumtheory Zpow_facts.
From Stdlib Require Import Zmod.
From Stdlib Require String Ascii DecimalString.
Import ListNotations.

Local Open Scope Z_scope.

(** ** Field arithmetic of circom

    Every circom value is an integer in [[0, p)]; the operators below are
    the ones the templates use, with circom's definitions: [+], [-] and [*]
    reduce modulo [p]; [<<] multiplies by a power of two, masks to the bit
    length of [p] and reduces; [>>] is integer division by a power of two;
    a shift by more than [p/2] is a shift by [p - k] the other way; [&] is
    the bitwise conjunction, reduced. *)

Module Circom.
Section Arith.
Variable p : Z.

Definition in_field (x : Z) : bool := (0 <=? x) && (x <? p).

Definition add (a b : Z) : Z := (a + b) mod p.
Definition sub (a b : Z) : Z := (a - b) mod p.
Definition mul (a b : Z) : Z := (a * b) mod p.

(** number of significant bits of [p], and the mask of that many ones *)
Definition bits : Z := Z.log2 p + 1.
Definition mask : Z := 2 ^ bits - 1.

Definition shl_by (x k : Z) : Z := (Z.land (x * 2 ^ k) mask) mod p.
Definition shr_by (x k : Z) : Z := x / 2 ^ k.

Definition shl (x k : Z) : Z :=
  if k <=? p / 2 then shl_by x k else shr_by x (p - k).
Definition shr (x k : Z) : Z :=
  if k <=? p / 2 then shr_by x k else shl_by x (p - k).

Definition band (a b : Z) : Z := (Z.land a b) mod p.
End Arith.
End Circom.

(** ** Signals

    One record per template: its input and output signals, its
    intermediate signals and the signals of its sub-components. *)

Record Num2Bits_signals := {
  n2b_in : Z;
  n2b_out : list Z
}.

Record LessThan_signals := {
  lt_in0 : Z;
  lt_in1 : Z;
  lt_out : Z;
  lt_n2b : Num2Bits_signals
}.

Record GreaterThan_signals := {
  gt_in0 : Z;
  gt_in1 : Z;
  gt_out : Z;
  gt_lt : LessThan_signals
}.

Record GreaterEqThan_signals := {
  ge_in0 : Z;
  ge_in1 : Z;
  ge_out : Z;
  ge_lt : LessThan_signals
}.

Record LessEqThan_signals := {
  le_in0 : Z;
  le_in1 : Z;
  le_out : Z;
  le_gt : GreaterThan_signals
}.

Record RangeProof_signals := {
  value : Z;
  minValue : Z;
  maxValue : Z;
  valid : Z;
  aboveMin : Z;
  belowMax : Z;
  gtMin : GreaterEqThan_signals;
  ltMax : LessEqThan_signals
}.

(** A built component: the check of its constraints on an assignment of
    its signals, and its witness program, from the values of its inputs
    to the assignment (or to nothing, when a constraint fails on the
    values the program computed). *)
Record component (I S : Type) := {
  constraints : S -> bool;
  witness : I -> option S
}.
Arguments constraints {I S}.
Arguments witness {I S}.

Section Templates.
Variable p : Z.

Abbreviation in_field := (Circom.in_field p).
Abbreviation add := (Circom.add p).
Abbreviation sub := (Circom.sub p).
Abbreviation mul := (Circom.mul p).
Abbreviation shl := (Circom.shl p).
Abbreviation shr := (Circom.shr p).
Abbreviation band := (Circom.band p).

(** *** Num2Bits(n) *)

(** [out[i] * (out[i] - 1) === 0] *)
Definition boolean_constraint (b : Z) : bool := mul b (sub b 1) =? 0.

(** One turn of the loop, on the constraint side: the state is the
    linear combination [lc] and the conjunction of the constraints
    emitted so far. *)
Definition Num2Bits_body (out : list Z) (st : Z * bool) (i : nat) : Z * bool :=
  let oi := nth i out 0 in
  (add (fst st) (mul oi (shl 1 (Z.of_nat i))),
   snd st && boolean_constraint oi).

(** [for (var i = 0; i<n; i++)], from [var lc = 0] *)
Definition Num2Bits_loop (n : nat) (out : list Z) : Z * bool :=
  fold_left (Num2Bits_body out) (seq 0 n) (0, true).

(** every signal is a field element, and [out] has [n] cells *)
Definition Num2Bits_signals_ok (n : nat) (s : Num2Bits_signals) : bool :=
  in_field (n2b_in s) && (length (n2b_out s) =? n)%nat
  && forallb in_field (n2b_out s).

(** the constraints of the loop, then [lc === in] *)
Definition Num2Bits_constraints (n : nat) (s : Num2Bits_signals) : bool :=
  let '(lc, ok) := Num2Bits_loop n (n2b_out s) in
  Num2Bits_signals_ok n s && ok && (lc =? n2b_in s).

(** One turn of the loop in the witness program: [out[i]] is assigned
    the hint [(in >> i) & 1], the constraint on it is checked, [lc]
    grows. *)
Definition Num2Bits_wbody (inp : Z) (st : option (list Z * Z)) (i : nat)
  : option (list Z * Z) :=
  match st with
  | None => None
  | Some (out, lc) =>
      let oi := band (shr inp (Z.of_nat i)) 1 in
      if boolean_constraint oi
      then Some (out ++ [oi], add lc (mul oi (shl 1 (Z.of_nat i))))
      else None
  end.

(** the loop from empty [out] and [lc = 0], then the check of
    [lc === in] *)
Definition Num2Bits_witness (n : nat) (inp : Z) : option Num2Bits_signals :=
  match fold_left (Num2Bits_wbody inp) (seq 0 n) (Some ([], 0)) with
  | None => None
  | Some (out, lc) =>
      if lc =? inp then Some {| n2b_in := inp; n2b_out := out |} else None
  end.

(** the template has no assertion: it is built for every [n] *)
Definition Num2Bits (n : nat) : option (component Z Num2Bits_signals) :=
  Some {| constraints := Num2Bits_constraints n;
          witness := Num2Bits_witness n |}.

(** *** LessThan(n) *)

(** [assert(n <= 252)]: the parameter is a number of bits, far below
    [p/2], where circom's comparison is the one of the integers. *)
Definition LessThan_assert (n : nat) : bool := (n <=? 252)%nat.

(** [in[0] + (1<<n) - in[1]] *)
Definition LessThan_shifted (n : nat) (a b : Z) : Z :=
  sub (add a (shl 1 (Z.of_nat n))) b.

(** [component n2b = Num2Bits(n+1)];
    [n2b.in <== in[0] + (1<<n) - in[1]]; [out <== 1 - n2b.out[n]] *)
Definition LessThan_constraints (n : nat) (s : LessThan_signals) : bool :=
  in_field (lt_in0 s) && in_field (lt_in1 s) && in_field (lt_out s)
  && Num2Bits_constraints (n + 1) (lt_n2b s)
  && (n2b_in (lt_n2b s) =? LessThan_shifted n (lt_in0 s) (lt_in1 s))
  && (lt_out s =? sub 1 (nth n (n2b_out (lt_n2b s)) 0)).

Definition LessThan_witness (n : nat) (i : Z * Z) : option LessThan_signals :=
  match Num2Bits_witness (n + 1) (LessThan_shifted n (fst i) (snd i)) with
  | None => None
  | Some n2b =>
      Some {| lt_in0 := fst i; lt_in1 := snd i;
              lt_out := sub 1 (nth n (n2b_out n2b) 0);
              lt_n2b := n2b |}
  end.

(** the assertion is checked when the template is instantiated, and
    the component is not built when it fails *)
Definition LessThan (n : nat) : option (component (Z * Z) LessThan_signals) :=
  if LessThan_assert n then
    match Num2Bits (n + 1) with
    | None => None
    | Some _ =>
        Some {| constraints := LessThan_constraints n;
                witness := LessThan_witness n |}
    end
  else None.

(** *** GreaterThan(n) *)

(** [component lt = LessThan(n)]; [lt.in[0] <== in[1]];
    [lt.in[1] <== in[0]]; [out <== lt.out] *)
Definition GreaterThan_constraints (n : nat) (s : GreaterThan_signals) : bool :=
  in_field (gt_in0 s) && in_field (gt_in1 s) && in_field (gt_out s)
  && LessThan_constraints n (gt_lt s)
  && (lt_in0 (gt_lt s) =? gt_in1 s)
  && (lt_in1 (gt_lt s) =? gt_in0 s)
  && (gt_out s =? lt_out (gt_lt s)).

Definition GreaterThan_witness (n : nat) (i : Z * Z) : option GreaterThan_signals :=
  match LessThan_witness n (snd i, fst i) with
  | None => None
  | Some lt =>
      Some {| gt_in0 := fst i; gt_in1 := snd i;
              gt_out := lt_out lt; gt_lt := lt |}
  end.

Definition GreaterThan (n : nat)
  : option (component (Z * Z) GreaterThan_signals) :=
  match LessThan n with
  | None => None
  | Some _ =>
      Some {| constraints := GreaterThan_constraints n;
              witness := GreaterThan_witness n |}
  end.

(** *** GreaterEqThan(n) *)

(** [component lt = LessThan(n)]; [lt.in[0] <== in[0]];
    [lt.in[1] <== in[1]]; [out <== 1 - lt.out] *)
Definition GreaterEqThan_constraints (n : nat) (s : GreaterEqThan_signals)
  : bool :=
  in_field (ge_in0 s) && in_field (ge_in1 s) && in_field (ge_out s)
  && LessThan_constraints n (ge_lt s)
  && (lt_in0 (ge_lt s) =? ge_in0 s)
  && (lt_in1 (ge_lt s) =? ge_in1 s)
  && (ge_out s =? sub 1 (lt_out (ge_lt s))).

Definition GreaterEqThan_witness (n : nat) (i : Z * Z)
  : option GreaterEqThan_signals :=
  match LessThan_witness n (fst i, snd i) with
  | None => None
  | Some lt =>
      Some {| ge_in0 := fst i; ge_in1 := snd i;
              ge_out := sub 1 (lt_out lt); ge_lt := lt |}
  end.

Definition GreaterEqThan (n : nat)
  : option (component (Z * Z) GreaterEqThan_signals) :=
  match LessThan n with
  | None => None
  | Some _ =>
      Some {| constraints := GreaterEqThan_constraints n;
              witness := GreaterEqThan_witness n |}
  end.

(** *** LessEqThan(n) *)

(** [component gt = GreaterThan(n)]; [gt.in[0] <== in[0]];
    [gt.in[1] <== in[1]]; [out <== 1 - gt.out] *)
Definition LessEqThan_constraints (n : nat) (s : LessEqThan_signals) : bool :=
  in_field (le_in0 s) && in_field (le_in1 s) && in_field (le_out s)
  && GreaterThan_constraints n (le_gt s)
  && (gt_in0 (le_gt s) =? le_in0 s)
  && (gt_in1 (le_gt s) =? le_in1 s)
  && (le_out s =? sub 1 (gt_out (le_gt s))).

Definition LessEqThan_witness (n : nat) (i : Z * Z)
  : option LessEqThan_signals :=
  match GreaterThan_witness n (fst i, snd i) with
  | None => None
  | Some gt =>
      Some {| le_in0 := fst i; le_in1 := snd i;
              le_out := sub 1 (gt_out gt); le_gt := gt |}
  end.

Definition LessEqThan (n : nat)
  : option (component (Z * Z) LessEqThan_signals) :=
  match GreaterThan n with
  | None => None
  | Some _ =>
      Some {| constraints := LessEqThan_constraints n;
              witness := LessEqThan_witness n |}
  end.

(** *** RangeProof(n) *)

(** [gtMin = GreaterEqThan(n)] on [(value, minValue)], [aboveMin <==
    gtMin.out]; [ltMax = LessEqThan(n)] on [(value, maxValue)], [belowMax
    <== ltMax.out]; [valid <== aboveMin * belowMax]; [valid === 1] *)
Definition RangeProof_constraints (n : nat) (s : RangeProof_signals) : bool :=
  in_field (value s) && in_field (minValue s) && in_field (maxValue s)
  && in_field (valid s) && in_field (aboveMin s) && in_field (belowMax s)
  && GreaterEqThan_constraints n (gtMin s)
  && (ge_in0 (gtMin s) =? value s)
  && (ge_in1 (gtMin s) =? minValue s)
  && (aboveMin s =? ge_out (gtMin s))
  && LessEqThan_constraints n (ltMax s)
  && (le_in0 (ltMax s) =? value s)
  && (le_in1 (ltMax s) =? maxValue s)
  && (belowMax s =? le_out (ltMax s))
  && (valid s =? mul (aboveMin s) (belowMax s))
  && (valid s =? 1).

(** the inputs, in the order of their declaration:
    [value], [minValue], [maxValue] *)
Definition RangeProof_witness (n : nat) (i : Z * Z * Z)
  : option RangeProof_signals :=
  let '(v, mn, mx) := i in
  match GreaterEqThan_witness n (v, mn) with
  | None => None
  | Some ge =>
      match LessEqThan_witness n (v, mx) with
      | None => None
      | Some le =>
          let vld := mul (ge_out ge) (le_out le) in
          if vld =? 1 then
            Some {| value := v; minValue := mn; maxValue := mx;
                    valid := vld;
                    aboveMin := ge_out ge; belowMax := le_out le;
                    gtMin := ge; ltMax := le |}
          else None
      end
  end.

Definition RangeProof (n : nat)
  : option (component (Z * Z * Z) RangeProof_signals) :=
  match GreaterEqThan n, LessEqThan n with
  | Some _, Some _ =>
      Some {| constraints := RangeProof_constraints n;
              witness := RangeProof_witness n |}
  | _, _ => None
  end.

End Templates.

(** ** The field of the build

    scripts/compile_circuits.js runs [circom] without [-p] and sets up
    [powersoftau new bn128]: the field is the scalar field of BN128. *)

Definition bn128 : Z :=
  21888242871839275222246405745257275088548364400416034343698204186575808495617.

(** [component main {public [minValue, maxValue]} = RangeProof(32)] *)
Definition main : option (component (Z * Z * Z) RangeProof_signals) :=
  RangeProof bn128 32.

(** what [main] is once built: the constraint system and the witness
    program of RangeProof(32) over that field *)
Definition main_component : component (Z * Z * Z) RangeProof_signals :=
  {| constraints := RangeProof_constraints bn128 32;
     witness := RangeProof_witness bn128 32 |}.

(** ** Bit vectors, and the assignments the templates determine

    What follows is not in the source: the integer reading of a vector of
    bits, and closed forms of the assignments, which the facts below prove
    to be what the witness programs compute and what the constraints
    force. *)

(** [lin w out n]: the sum of [out[i] * w i] for [i < n], over the integers *)
Fixpoint lin (w : nat -> Z) (out : list Z) (n : nat) : Z :=
  match n with
  | O => 0
  | S k => lin w out k + nth k out 0 * w k
  end.

Definition pow2 (i : nat) : Z := 2 ^ Z.of_nat i.

(** the [n] low bits of [x], least significant first *)
Definition bits_of (n : nat) (x : Z) : list Z :=
  map (fun i => Z.b2z (Z.testbit x (Z.of_nat i))) (seq 0 n).

Definition is_bit (b : Z) : Prop := b = 0 \/ b = 1.

(** the weights [1 << i] of the linear combination *)
Definition shl_weight (p : Z) (i : nat) : Z := Circom.shl p 1 (Z.of_nat i).

(** the assignment that the decomposition of [x] in [n] bits is *)
Definition Num2Bits_assignment (n : nat) (x : Z) : Num2Bits_signals :=
  {| n2b_in := x; n2b_out := bits_of n x |}.

Definition LessThan_assignment (n : nat) (a b : Z) : LessThan_signals :=
  {| lt_in0 := a; lt_in1 := b;
     lt_out := if a <? b then 1 else 0;
     lt_n2b := Num2Bits_assignment (n + 1) (a + 2 ^ Z.of_nat n - b) |}.

Definition GreaterThan_assignment (n : nat) (a b : Z) : GreaterThan_signals :=
  {| gt_in0 := a; gt_in1 := b;
     gt_out := if b <? a then 1 else 0;
     gt_lt := LessThan_assignment n b a |}.

Definition GreaterEqThan_assignment (n : nat) (a b : Z) : GreaterEqThan_signals :=
  {| ge_in0 := a; ge_in1 := b;
     ge_out := if b <=? a then 1 else 0;
     ge_lt := LessThan_assignment n a b |}.

Definition LessEqThan_assignment (n : nat) (a b : Z) : LessEqThan_signals :=
  {| le_in0 := a; le_in1 := b;
     le_out := if a <=? b then 1 else 0;
     le_gt := GreaterThan_assignment n a b |}.

Definition RangeProof_assignment (n : nat) (v mn mx : Z) : RangeProof_signals :=
  {| value := v; minValue := mn; maxValue := mx;
     valid := 1; aboveMin := 1; belowMax := 1;
     gtMin := GreaterEqThan_assignment n v mn;
     ltMax := LessEqThan_assignment n v mx |}.

(** ** Primality certificates *)

(** [n] has no divisor among [2 .. k+1] *)
Definition no_small_divisor (n : Z) (k : nat) : bool :=
  forallb (fun d => negb (n mod Z.of_nat d =? 0)) (seq 2 k).

(** trial division up to the square root *)
Definition trial_division (n : Z) (k : nat) : bool :=
  (1 <? n) && no_small_divisor n k && (n <? (Z.of_nat k + 2) * (Z.of_nat k + 2)).

(** an item [(q, e, a)] of a Pocklington certificate of [n]: the prime
    power [q^e] divides [n - 1], and [a] has order a multiple of [q^e]
    modulo every prime factor of [n] *)
Definition cert_item_ok (n : Z) (it : Z * Z * Z) (rest : Z) : bool :=
  let '(q, e, a) := it in
  (0 <? e)
  && (Zpow_mod a (n - 1) n =? 1)
  && (Z.gcd (Zpow_mod a ((n - 1) / q) n - 1) n =? 1)
  && (Z.gcd (q ^ e) rest =? 1)
  && ((n - 1) mod q ^ e =? 0).

Fixpoint cert_product (c : list (Z * Z * Z)) : Z :=
  match c with
  | [] => 1
  | (q, e, _) :: t => q ^ e * cert_product t
  end.

Fixpoint cert_ok (n : Z) (c : list (Z * Z * Z)) : bool :=
  match c with
  | [] => true
  | it :: t => cert_item_ok n it (cert_product t) && cert_ok n t
  end.

Definition pocklington (n : Z) (c : list (Z * Z * Z)) : bool :=
  (1 <? n) && cert_ok n c && (n <? cert_product c * cert_product c).

(** ** The build script (scripts/compile_circuits.js)

    The script is modelled with explicit state: the world outside, that
    Node gives access to, and the trace of what the script did to it. *)

Module Script.
Import String Ascii DecimalString.
Local Open Scope string_scope.

(** A string of the script is held as its bytes in UTF-8, the encoding of
    the source file, and [this.length] counts UTF-16 code units: one for a
    character of up to three bytes, two for a character of four bytes. The
    leading byte of a character tells which, and a continuation byte
    ([10xxxxxx]) counts for nothing. *)
Definition utf16_units (c : ascii) : nat :=
  let b := nat_of_ascii c in
  if (b <? 128)%nat then 1
  else if (b <? 192)%nat then 0
  else if (b <? 240)%nat then 1
  else 2.

Fixpoint js_length (s : string) : nat :=
  match s with
  | EmptyString => 0
  | String c rest => utf16_units c + js_length rest
  end.

(** [String.prototype.center]: the string between blanks, to the width *)
Definition repeat_string (s : string) (k : nat) : string :=
  String.concat "" (List.repeat s k).

Definition center (this : string) (width : Z) : string :=
  let padding := Z.max 0 (width - Z.of_nat (js_length this)) in
  let left := padding / 2 in
  let right := padding - left in
  repeat_string " " (Z.to_nat left) ++ this ++ repeat_string " " (Z.to_nat right).

(** [file.endsWith(suffix)] *)
Definition endsWith (s suffix : string) : bool :=
  let n := String.length s in
  let m := String.length suffix in
  (m <=? n)%nat && String.eqb (substring (n - m) m s) suffix.

(** the characters that a literal of this file cannot hold *)
Definition esc : string := String "027" EmptyString.
Definition nl : string := String "010" EmptyString.
Definition dquote : string := String "034" EmptyString.

(** [colors[color]] *)
Definition colors (color : string) : string :=
  if String.eqb color "reset" then esc ++ "[0m"
  else if String.eqb color "green" then esc ++ "[32m"
  else if String.eqb color "red" then esc ++ "[31m"
  else if String.eqb color "yellow" then esc ++ "[33m"
  else if String.eqb color "cyan" then esc ++ "[36m"
  else "undefined".

(** [`${n}`] for a count *)
Definition decimal (k : nat) : string :=
  NilEmpty.string_of_uint (Nat.to_uint k).

(** what the script does to its environment, in order *)
Inductive event :=
| Log (line : string)
| Mkdir (dir : string)
| Rename (from to : string)
| Exec (command : string) (ok : bool).

(** the world outside, as Node gives it to the script: the directory of
    the script, [path], the file system of [fs] and the programs that
    [child_process] runs; a call of [fs] returns or throws ([None]), and
    [execSync] throws ([false]) when the command fails *)
Record Node := {
  World : Type;
  dirname : string;
  path_join : list string -> string;
  path_basename : string -> string -> string;
  existsSync : string -> World -> bool;
  mkdirSync : string -> World -> option World;
  renameSync : string -> string -> World -> option World;
  readdirSync : string -> World -> option (list string);
  execSync : string -> World -> bool * World
}.

Record state (N : Node) := {
  world : World N;
  trace : list event
}.
Arguments world {N}.
Arguments trace {N}.

Section WithNode.
Variable N : Node.

(** a computation returns, or throws ([None]) *)
Definition M (A : Type) : Type := state N -> option A * state N.

Definition ret {A} (a : A) : M A := fun st => (Some a, st).

Definition bind {A B} (m : M A) (k : A -> M B) : M B :=
  fun st =>
    match m st with
    | (Some a, st') => k a st'
    | (None, st') => (None, st')
    end.

Notation "x <- m ;; k" := (bind m (fun x => k))
  (at level 61, m at next level, right associativity).
Notation "m ;; k" := (bind m (fun _ => k))
  (at level 61, right associativity).

Definition emit (e : event) : M unit :=
  fun st => (Some tt, {| world := world st; trace := trace st ++ [e] |}).

Definition fs_existsSync (path : string) : M bool :=
  fun st => (Some (existsSync N path (world st)), st).

Definition fs_mkdirSync (dir : string) : M unit :=
  fun st =>
    match mkdirSync N dir (world st) with
    | Some w => (Some tt, {| world := w; trace := trace st ++ [Mkdir dir] |})
    | None => (None, st)
    end.

Definition fs_renameSync (from to : string) : M unit :=
  fun st =>
    match renameSync N from to (world st) with
    | Some w => (Some tt, {| world := w; trace := trace st ++ [Rename from to] |})
    | None => (None, st)
    end.

Definition fs_readdirSync (dir : string) : M (list string) :=
  fun st =>
    match readdirSync N dir (world st) with
    | Some l => (Some l, st)
    | None => (None, st)
    end.

(** [execSync] in its [try]: [true] when it returns, [false] when it
    throws *)
Definition try_execSync (command : string) : M bool :=
  fun st =>
    let '(ok, w) := execSync N command (world st) in
    (Some ok, {| world := w; trace := trace st ++ [Exec command ok] |}).

Definition CIRCUITS_DIR : string := path_join N [dirname N; ".."; "circuits"].
Definition BUILD_DIR : string := path_join N [dirname N; ".."; "build"].
Definition CIRCUITS_BUILD_DIR : string := path_join N [BUILD_DIR; "circuits"].

Definition log (message color : string) : M unit :=
  emit (Log (colors color ++ message ++ colors "reset")).

Definition exec (command description : string) : M bool :=
  log ("  → " ++ description ++ "...") "cyan" ;;
  ok <- try_execSync command ;;
  if ok : bool then
    log ("  ✓ " ++ description ++ " completed") "green" ;;
    ret true
  else
    log ("  ✗ " ++ description ++ " failed") "red" ;;
    ret false.

Definition ensureDir (dir : string) : M unit :=
  found <- fs_existsSync dir ;;
  if negb found then
    fs_mkdirSync dir ;;
    log ("  Created directory: " ++ dir) "yellow"
  else ret tt.

Definition ptau_file : string := "powersOfTau28_hez_final_10.ptau".

Definition compileCmd (circuitPath outputDir : string) : string :=
  "circom " ++ circuitPath ++ " --r1cs --wasm --sym -o " ++ outputDir.
Definition infoCmd (r1csPath : string) : string :=
  "snarkjs r1cs info " ++ r1csPath.
Definition newPtauCmd (ptauPath : string) : string :=
  "snarkjs powersoftau new bn128 10 " ++ ptauPath ++ " -v".
Definition contributePtauCmd (ptauPath : string) : string :=
  "snarkjs powersoftau contribute " ++ ptauPath ++ " " ++ ptauPath
  ++ ".tmp -v -e=" ++ dquote ++ "random entropy" ++ dquote.
Definition preparePtauCmd (ptauPath : string) : string :=
  "snarkjs powersoftau prepare phase2 " ++ ptauPath ++ " " ++ ptauPath
  ++ ".tmp -v".
Definition setupCmd (r1csPath ptauPath zkeyPath : string) : string :=
  "snarkjs groth16 setup " ++ r1csPath ++ " " ++ ptauPath ++ " " ++ zkeyPath.
Definition exportVkeyCmd (zkeyPath vkeyPath : string) : string :=
  "snarkjs zkey export verificationkey " ++ zkeyPath ++ " " ++ vkeyPath.

(** steps 4 and 5 *)
Definition compileCircuit_keys (circuitName outputDir r1csPath ptauPath : string)
  : M bool :=
  log "  [4/5] Generating proving and verification keys..." "yellow" ;;
  let zkeyPath := path_join N [outputDir; circuitName ++ ".zkey"] in
  ok <- exec (setupCmd r1csPath ptauPath zkeyPath) "Groth16 setup" ;;
  if negb ok then ret false else
  log "  [5/5] Exporting verification key..." "yellow" ;;
  let vkeyPath := path_join N [outputDir; circuitName ++ "_vkey.json"] in
  ok <- exec (exportVkeyCmd zkeyPath vkeyPath) "Verification key export" ;;
  if negb ok then ret false else
  log (nl ++ "✓ Circuit " ++ circuitName ++ " compiled successfully!") "green" ;;
  log ("  Output directory: " ++ outputDir) "cyan" ;;
  ret true.

(** step 3, then the rest *)
Definition compileCircuit_ptau (circuitName outputDir r1csPath : string)
  : M bool :=
  log "  [3/5] Generating Powers of Tau..." "yellow" ;;
  let ptauPath := path_join N [BUILD_DIR; ptau_file] in
  found <- fs_existsSync ptauPath ;;
  if negb found then
    log "    Powers of Tau file not found, creating new ceremony..." "yellow" ;;
    ok <- exec (newPtauCmd ptauPath) "Powers of Tau new" ;;
    if negb ok then ret false else
    ok <- exec (contributePtauCmd ptauPath) "Powers of Tau contribute" ;;
    if negb ok then ret false else
    fs_renameSync (ptauPath ++ ".tmp") ptauPath ;;
    ok <- exec (preparePtauCmd ptauPath) "Powers of Tau prepare phase2" ;;
    if negb ok then ret false else
    fs_renameSync (ptauPath ++ ".tmp") ptauPath ;;
    compileCircuit_keys circuitName outputDir r1csPath ptauPath
  else
    log "    Using existing Powers of Tau file" "green" ;;
    compileCircuit_keys circuitName outputDir r1csPath ptauPath.

Definition compileCircuit (circuitName circuitFile : string) : M bool :=
  log (nl ++ "Compiling circuit: " ++ circuitName) "cyan" ;;
  let circuitPath := path_join N [CIRCUITS_DIR; circuitFile] in
  let outputDir := path_join N [CIRCUITS_BUILD_DIR; circuitName] in
  ensureDir outputDir ;;
  found <- fs_existsSync circuitPath ;;
  if negb found then
    log ("  Circuit file not found: " ++ circuitPath) "red" ;;
    ret false
  else
  log "  [1/5] Compiling Circom to R1CS and WASM..." "yellow" ;;
  ok <- exec (compileCmd circuitPath outputDir) "Circuit compilation" ;;
  if negb ok then ret false else
  log "  [2/5] Circuit info..." "yellow" ;;
  let r1csPath := path_join N [outputDir; circuitName ++ ".r1cs"] in
  ok <- exec (infoCmd r1csPath) "R1CS info" ;;
  (if negb ok
   then log "    (Info generation failed, but continuing...)" "yellow"
   else ret tt) ;;
  compileCircuit_ptau circuitName outputDir r1csPath.

(** [for (const circuit of circuits)], counting the successes *)
Fixpoint compile_each (circuits : list (string * string)) (successCount : nat)
  : M nat :=
  match circuits with
  | [] => ret successCount
  | (name, file) :: rest =>
      ok <- compileCircuit name file ;;
      compile_each rest (if ok : bool then S successCount else successCount)
  end.

Fixpoint log_each (circuits : list (string * string)) : M unit :=
  match circuits with
  | [] => ret tt
  | (name, _) :: rest => log ("  - " ++ name) "cyan" ;; log_each rest
  end.

(** [main], to the code it passes to [process.exit] *)
Definition main_script : M Z :=
  log (repeat_string "=" 80) "cyan" ;;
  log (center "AIBPB Circuit Compilation" 80) "cyan" ;;
  log (repeat_string "=" 80) "cyan" ;;
  ensureDir BUILD_DIR ;;
  ensureDir CIRCUITS_BUILD_DIR ;;
  files <- fs_readdirSync CIRCUITS_DIR ;;
  let circuits :=
    map (fun file => (path_basename N file ".circom", file))
        (filter (fun file => endsWith file ".circom") files) in
  if (List.length circuits =? 0)%nat then
    log (nl ++ "No circuit files found in circuits directory!") "red" ;;
    ret 1
  else
  log (nl ++ "Found " ++ decimal (List.length circuits) ++ " circuit(s) to compile:" ++ nl)
      "yellow" ;;
  log_each circuits ;;
  successCount <- compile_each circuits 0 ;;
  log (nl ++ repeat_string "=" 80) "cyan" ;;
  log ("Compilation complete: " ++ decimal successCount ++ "/"
       ++ decimal (List.length circuits) ++ " successful")
      (if (successCount =? List.length circuits)%nat then "green" else "yellow") ;;
  log (repeat_string "=" 80) "cyan" ;;
  ret (if (successCount =? List.length circuits)%nat then 0 else 1).

End WithNode.

(** ** What the facts on the script are stated with *)

(** the commands of a trace, in order, each with its outcome *)
Definition execs (t : list event) : list (string * bool) :=
  flat_map (fun e => match e with
                     | Exec command ok => [(command, ok)]
                     | _ => []
                     end) t.

Section ScriptPaths.
Variable N : Node.

Definition circuitPath (circuitFile : string) : string :=
  path_join N [CIRCUITS_DIR N; circuitFile].
Definition outputDir (circuitName : string) : string :=
  path_join N [CIRCUITS_BUILD_DIR N; circuitName].
Definition r1csPath (circuitName : string) : string :=
  path_join N [outputDir circuitName; circuitName ++ ".r1cs"].
Definition ptauPath : string := path_join N [BUILD_DIR N; ptau_file].
Definition zkeyPath (circuitName : string) : string :=
  path_join N [outputDir circuitName; circuitName ++ ".zkey"].
Definition vkeyPath (circuitName : string) : string :=
  path_join N [outputDir circuitName; circuitName ++ "_vkey.json"].

(** the world that [ensureDir dir] leaves, unless [mkdirSync] throws *)
Definition ensured (dir : string) (w : World N) : option (World N) :=
  if existsSync N dir w then Some w else mkdirSync N dir w.

(** the commands of a build that goes through, with their outcomes:
    the ceremony is run when there is no ptau file yet, and [r1cs info]
    is the one command that may fail *)
Definition successful_run (circuitName circuitFile : string)
  (new_ptau info_ok : bool) : list (string * bool) :=
  [(compileCmd (circuitPath circuitFile) (outputDir circuitName), true);
   (infoCmd (r1csPath circuitName), info_ok)]
  ++ (if new_ptau
      then [(newPtauCmd ptauPath, true);
            (contributePtauCmd ptauPath, true);
            (preparePtauCmd ptauPath, true)]
      else [])
  ++ [(setupCmd (r1csPath circuitName) ptauPath (zkeyPath circuitName), true);
      (exportVkeyCmd (zkeyPath circuitName) (vkeyPath circuitName), true)].

End ScriptPaths.

(** the circuits that [main] finds in a listing *)
Definition circuits_of (N : Node) (files : list string)
  : list (string * string) :=
  map (fun file => (path_basename N file ".circom", file))
      (filter (fun file => endsWith file ".circom") files).

(** a small world to run the script in: the paths that exist, commands
    that succeed or fail as [commands_ok] says, a file system that works
    or throws, and a fixed listing of the circuits directory *)
Definition test_node (commands_ok : string -> bool) (fs_ok : bool)
  (listing : list string) : Node :=
  {| World := list string;
     dirname := "/repo/scripts";
     path_join := String.concat "/";
     path_basename := fun file ext =>
       if endsWith file ext
       then substring 0 (String.length file - String.length ext) file
       else file;
     existsSync := fun path w => existsb (String.eqb path) w;
     mkdirSync := fun dir w => if fs_ok then Some (dir :: w) else None;
     renameSync := fun from to w => if fs_ok then Some (to :: w) else None;
     readdirSync := fun dir w => if fs_ok then Some listing else None;
     execSync := fun command w => (commands_ok command, w) |}.

(** a test node with a circuit and commands that succeed, with commands
    that fail, with a file system that throws, and without a circuit *)
Definition repo_circuit : string :=
  "/repo/scripts/../circuits/range_proof.circom".
Definition node_ok : Node :=
  test_node (fun _ => true) true ["range_proof.circom"; "README.md"].
Definition node_failing : Node :=
  test_node (fun _ => false) true ["range_proof.circom"; "README.md"].
Definition node_broken : Node :=
  test_node (fun _ => true) false ["range_proof.circom"; "README.md"].
Definition node_empty : Node :=
  test_node (fun _ => true) true ["README.md"].
Definition start_ok : state node_ok := Build_state node_ok [repo_circuit] [].
Definition start_failing : state node_failing :=
  Build_state node_failing [repo_circuit] [].
Definition start_broken : state node_broken :=
  Build_state node_broken [repo_circuit] [].
Definition start_empty : state node_empty := Build_state node_empty [] [].

(** the states in which the builds above end *)
Definition built_ok : state node_ok :=
  snd (compileCircuit node_ok "range_proof" "range_proof.circom" start_ok).
Definition built_failing : state node_failing :=
  snd (compileCircuit node_failing "range_proof" "range_proof.circom"
         start_failing).
Definition built_broken : state node_broken :=
  snd (compileCircuit node_broken "range_proof" "range_proof.circom"
         start_broken).
Definition ended_ok : state node_ok := snd (main_script node_ok start_ok).
Definition ended_empty : state node_empty :=
  snd (main_script node_empty start_empty).

End Script.

(** ** Facts on the field arithmetic *)

Ltac bool_to_prop :=
  repeat match goal with
  | H : _ && _ = true |- _ => apply andb_prop in H; destruct H
  | H : (_ =? _) = true |- _ => apply Z.eqb_eq in H
  | H : (_ =? _)%nat = true |- _ => apply Nat.eqb_eq in H
  | H : (_ <=? _) = true |- _ => apply Z.leb_le in H
  | H : (_ <? _) = true |- _ => apply Z.ltb_lt in H
  end.

Section FieldFacts.
Variable p : Z.

Abbreviation in_field := (Circom.in_field p).
Abbreviation add := (Circom.add p).
Abbreviation sub := (Circom.sub p).
Abbreviation mul := (Circom.mul p).
Abbreviation shl := (Circom.shl p).
Abbreviation shr := (Circom.shr p).
Abbreviation band := (Circom.band p).

Lemma in_field_iff x : in_field x = true <-> 0 <= x < p.
Proof.
  unfold Circom.in_field. rewrite andb_true_iff, Z.leb_le, Z.ltb_lt. tauto.
Qed.

Lemma half_ge_exponent k : 0 <= k -> 2 ^ k <= p -> k <= p / 2.
Proof.
  intros Hk Hp.
  destruct (Z.eq_dec k 0) as [->|Hne].
  - apply Z.div_pos; lia.
  - assert (Hlin : k - 1 < 2 ^ (k - 1)) by (apply Z.pow_gt_lin_r; lia).
    assert (Hpow : 2 ^ k = 2 * 2 ^ (k - 1)).
    { rewrite <- Z.pow_succ_r by lia. f_equal. lia. }
    apply Z.div_le_lower_bound; lia.
Qed.

Lemma bits_gt_exponent k : 0 <= k -> 2 ^ k <= p -> k < Circom.bits p.
Proof.
  intros Hk Hp. unfold Circom.bits.
  assert (0 < p) by (pose proof (Z.pow_pos_nonneg 2 k); lia).
  assert (k <= Z.log2 p) by (apply Z.log2_le_pow2; lia).
  lia.
Qed.

Lemma mask_ones : Circom.mask p = Z.ones (Circom.bits p).
Proof. unfold Circom.mask. rewrite Z.ones_equiv. lia. Qed.

Lemma bits_nonneg : 0 <= Circom.bits p.
Proof. unfold Circom.bits. pose proof (Z.log2_nonneg p). lia. Qed.

Lemma lt_pow_bits : 0 < p -> p < 2 ^ Circom.bits p.
Proof.
  intros Hp. unfold Circom.bits.
  replace (Z.log2 p + 1) with (Z.succ (Z.log2 p)) by lia.
  apply Z.log2_spec; assumption.
Qed.

(** [1 << k] is the power of two as long as it is below [p] *)
Lemma shl_1_small k : 0 <= k -> 2 ^ k < p -> shl 1 k = 2 ^ k.
Proof.
  intros Hk Hp. unfold Circom.shl, Circom.shl_by.
  assert (Hhalf : k <= p / 2) by (apply half_ge_exponent; lia).
  apply Z.leb_le in Hhalf. rewrite Hhalf.
  rewrite Z.mul_1_l, mask_ones, Z.land_ones by apply bits_nonneg.
  assert (Hb : k < Circom.bits p) by (apply bits_gt_exponent; lia).
  assert (0 < 2 ^ k) by (apply Z.pow_pos_nonneg; lia).
  assert (2 ^ k < 2 ^ Circom.bits p) by (apply Z.pow_lt_mono_r; lia).
  rewrite (Z.mod_small (2 ^ k) (2 ^ Circom.bits p)) by lia.
  apply Z.mod_small; lia.
Qed.

(** in general, for a shift within [[0, p/2]], [1 << k] is a power of
    two reduced, or nothing once the bit leaves the mask *)
Lemma shl_1_low k :
  0 <= k <= p / 2 -> k < Circom.bits p -> shl 1 k = 2 ^ k mod p.
Proof.
  intros [Hk Hhalf] Hb. unfold Circom.shl, Circom.shl_by.
  apply Z.leb_le in Hhalf. rewrite Hhalf.
  rewrite Z.mul_1_l, mask_ones, Z.land_ones by apply bits_nonneg.
  assert (0 < 2 ^ k) by (apply Z.pow_pos_nonneg; lia).
  assert (2 ^ k < 2 ^ Circom.bits p) by (apply Z.pow_lt_mono_r; lia).
  rewrite (Z.mod_small (2 ^ k) (2 ^ Circom.bits p)) by lia.
  reflexivity.
Qed.

Lemma shl_1_high k :
  0 <= k <= p / 2 -> Circom.bits p <= k -> shl 1 k = 0.
Proof.
  intros [Hk Hhalf] Hb. unfold Circom.shl, Circom.shl_by.
  apply Z.leb_le in Hhalf. rewrite Hhalf.
  rewrite Z.mul_1_l, mask_ones, Z.land_ones by apply bits_nonneg.
  pose proof bits_nonneg.
  replace k with (Circom.bits p + (k - Circom.bits p)) by lia.
  rewrite Z.pow_add_r by lia.
  rewrite Z.mul_comm, Z.mod_mul.
  - apply Z.mod_0_l. 
    intros ->. rewrite Zdiv_0_l in Hhalf. apply Z.leb_le in Hhalf. 
    unfold Circom.bits in *. simpl in *. lia.
  - apply Z.pow_nonzero; lia.
Qed.

(** the hint [(x >> k) & 1] is bit [k] of [x] *)
Lemma hint_bit x k :
  1 < p -> 0 <= k <= p / 2 ->
  band (shr x k) 1 = Z.b2z (Z.testbit x k).
Proof.
  intros Hp [Hk Hhalf]. unfold Circom.band, Circom.shr, Circom.shr_by.
  apply Z.leb_le in Hhalf. rewrite Hhalf.
  change 1 with (Z.ones 1) at 1. rewrite Z.land_ones by lia.
  change (2 ^ 1) with 2.
  rewrite <- Z.testbit_spec' by assumption.
  apply Z.mod_small. destruct (Z.testbit x k); simpl; lia.
Qed.

Lemma boolean_constraint_b2z (b : bool) :
  1 < p -> boolean_constraint p (Z.b2z b) = true.
Proof.
  intros Hp. unfold boolean_constraint, Circom.mul, Circom.sub.
  apply Z.eqb_eq. destruct b; simpl Z.b2z.
  - replace (1 - 1) with 0 by lia. rewrite (Z.mod_0_l p) by lia.
    rewrite Z.mul_0_r. apply Z.mod_0_l; lia.
  - rewrite Z.mul_0_l. apply Z.mod_0_l; lia.
Qed.

(** the constraint [b * (b - 1) === 0] holds of 0 and 1 only: a prime
    dividing a product divides a factor *)
Lemma boolean_constraint_iff b :
  Z.prime p -> 0 <= b < p ->
  (boolean_constraint p b = true <-> b = 0 \/ b = 1).
Proof.
  intros Hprime Hb. pose proof (Z.prime_ge_2 _ Hprime) as Hp2.
  unfold boolean_constraint, Circom.mul, Circom.sub.
  rewrite Z.eqb_eq. split.
  - intros H. rewrite Z.mul_mod_idemp_r in H by lia.
    apply Z.mod_divide in H; [|lia].
    apply Z.divide_prime_mul in H; [|assumption].
    destruct H as [[q Hq]|[q Hq]].
    + left. assert (q = 0) by nia. subst q. lia.
    + right. assert (q = 0) by nia. subst q. lia.
  - intros [->| ->].
    + rewrite Z.mul_0_l. apply Z.mod_0_l; lia.
    + replace (1 - 1) with 0 by lia. rewrite (Z.mod_0_l p) by lia.
      rewrite Z.mul_0_r. apply Z.mod_0_l; lia.
Qed.

End FieldFacts.

(** ** Facts on bit vectors *)

Section BitVectors.

Lemma lin_ext w w' out out' n :
  (forall i, (i < n)%nat -> nth i out 0 * w i = nth i out' 0 * w' i) ->
  lin w out n = lin w' out' n.
Proof.
  induction n as [|k IH]; intros H; simpl.
  - reflexivity.
  - rewrite IH by (intros i Hi; apply H; lia).
    rewrite (H k) by lia. reflexivity.
Qed.

Lemma lin_mod_ext m w w' out out' n :
  (forall i, (i < n)%nat ->
             (nth i out 0 * w i) mod m = (nth i out' 0 * w' i) mod m) ->
  lin w out n mod m = lin w' out' n mod m.
Proof.
  induction n as [|k IH]; intros H; simpl.
  - reflexivity.
  - rewrite Zplus_mod, IH, (H k), <- Zplus_mod by (try lia; intros; apply H; lia).
    reflexivity.
Qed.

Lemma length_bits_of n x : length (bits_of n x) = n.
Proof. unfold bits_of. rewrite length_map, length_seq. reflexivity. Qed.

Lemma nth_bits_of n x i :
  (i < n)%nat -> nth i (bits_of n x) 0 = Z.b2z (Z.testbit x (Z.of_nat i)).
Proof.
  intros Hi.
  rewrite (nth_indep _ 0 (Z.b2z (Z.testbit x (Z.of_nat 0))))
    by (rewrite length_bits_of; assumption).
  unfold bits_of.
  rewrite (map_nth (fun i => Z.b2z (Z.testbit x (Z.of_nat i)))).
  rewrite seq_nth by assumption. reflexivity.
Qed.


(** a vector of [n] bits is worth less than [2^n] *)
Lemma lin_bits_range out n :
  (forall i, (i < n)%nat -> is_bit (nth i out 0)) ->
  0 <= lin pow2 out n < 2 ^ Z.of_nat n.
Proof.
  induction n as [|k IH]; intros H.
  - simpl. lia.
  - cbn [lin]. rewrite Nat2Z.inj_succ, Z.pow_succ_r by lia.
    assert (IH' : 0 <= lin pow2 out k < 2 ^ Z.of_nat k)
      by (apply IH; intros; apply H; lia).
    assert (Hk : is_bit (nth k out 0)) by (apply H; lia).
    change (pow2 k) with (2 ^ Z.of_nat k).
    destruct Hk as [E|E]; rewrite E; lia.
Qed.

(** reconstruction: the [n] low bits of [x] are worth [x mod 2^n] *)
Lemma lin_bits_of n x : lin pow2 (bits_of n x) n = x mod 2 ^ Z.of_nat n.
Proof.
  assert (G : forall m k, (k <= m)%nat ->
              lin pow2 (bits_of m x) k = x mod 2 ^ Z.of_nat k).
  { intros m k. induction k as [|k IH]; intros Hk.
    - simpl. rewrite Z.mod_1_r. reflexivity.
    - cbn [lin]. rewrite IH by lia. rewrite nth_bits_of by lia.
      rewrite Nat2Z.inj_succ, Z.pow_succ_r by lia.
      rewrite (Z.mul_comm 2), Z.rem_mul_r by (try apply Z.pow_nonzero; lia).
      rewrite Z.testbit_spec' by lia. change (pow2 k) with (2 ^ Z.of_nat k). lia. }
  apply G. lia.
Qed.

(** decomposition is unique: bits worth [x] are the bits of [x] *)
Lemma lin_bits_unique out n x :
  (forall i, (i < n)%nat -> is_bit (nth i out 0)) ->
  lin pow2 out n = x ->
  forall i, (i < n)%nat -> nth i out 0 = Z.b2z (Z.testbit x (Z.of_nat i)).
Proof.
  revert x. induction n as [|k IH]; intros x Hbits Hsum i Hi; [lia|].
  cbn [lin] in Hsum.
  assert (Hlow : 0 <= lin pow2 out k < 2 ^ Z.of_nat k)
    by (apply lin_bits_range; intros; apply Hbits; lia).
  assert (Hpos : 0 < 2 ^ Z.of_nat k) by (apply Z.pow_pos_nonneg; lia).
  change (pow2 k) with (2 ^ Z.of_nat k) in Hsum.
  assert (Hk : is_bit (nth k out 0)) by (apply Hbits; lia).
  assert (Hdiv : x / 2 ^ Z.of_nat k = nth k out 0).
  { symmetry. apply (Z.div_unique_pos _ _ _ (lin pow2 out k)); lia. }
  assert (Hmod : x mod 2 ^ Z.of_nat k = lin pow2 out k).
  { symmetry. apply (Z.mod_unique_pos _ _ (nth k out 0)); lia. }
  destruct (Nat.eq_dec i k) as [->|Hne].
  - rewrite Z.testbit_spec' by lia. rewrite Hdiv.
    destruct Hk as [E|E]; rewrite E; reflexivity.
  - rewrite <- (Z.mod_pow2_bits_low x (Z.of_nat k)) by lia.
    apply IH; try lia.
    intros; apply Hbits; lia.
Qed.

End BitVectors.

(** ** Num2Bits *)

Section Num2BitsFacts.
Variable p : Z.

(** the loop, closed: the linear combination reduced, and the
    conjunction of the boolean constraints on the [n] cells *)
Lemma Num2Bits_loop_spec n out :
  Num2Bits_loop p n out =
  (lin (shl_weight p) out n mod p,
   forallb (fun i => boolean_constraint p (nth i out 0)) (seq 0 n)).
Proof.
  unfold Num2Bits_loop. induction n as [|k IH].
  - simpl. rewrite Zmod_0_l. reflexivity.
  - rewrite seq_S, fold_left_app, IH. cbn [fold_left Nat.add].
    unfold Num2Bits_body. cbn [fst snd lin].
    rewrite forallb_app. cbn [forallb]. rewrite andb_true_r.
    f_equal. unfold Circom.add, Circom.mul.
    rewrite <- Zplus_mod. reflexivity.
Qed.

Lemma bits_of_S k x :
  bits_of (S k) x = bits_of k x ++ [Z.b2z (Z.testbit x (Z.of_nat k))].
Proof. unfold bits_of. rewrite seq_S, map_app. reflexivity. Qed.

Lemma lin_bits_of_prefix w k x :
  lin w (bits_of (S k) x) k = lin w (bits_of k x) k.
Proof.
  apply lin_ext. intros i Hi. rewrite !nth_bits_of by lia. reflexivity.
Qed.

(** the loop of the witness program never stops on a hint: it assigns
    the bits of the input *)
Lemma Num2Bits_wloop_spec n x :
  1 < p -> Z.of_nat n <= p / 2 ->
  fold_left (Num2Bits_wbody p x) (seq 0 n) (Some ([], 0)) =
  Some (bits_of n x, lin (shl_weight p) (bits_of n x) n mod p).
Proof.
  intros Hp. induction n as [|k IH]; intros Hn.
  - simpl. rewrite Zmod_0_l. reflexivity.
  - rewrite seq_S, fold_left_app, IH by lia. cbn [fold_left Nat.add].
    unfold Num2Bits_wbody.
    rewrite hint_bit by lia.
    rewrite boolean_constraint_b2z by assumption.
    rewrite <- bits_of_S. f_equal. f_equal.
    cbn [lin]. rewrite lin_bits_of_prefix, nth_bits_of by lia.
    unfold Circom.add, Circom.mul, shl_weight.
    rewrite <- Zplus_mod. reflexivity.
Qed.

(** below the modulus, the weights are the powers of two *)
Lemma shl_weight_pow2 n i :
  2 ^ Z.of_nat n <= p -> (i < n)%nat -> shl_weight p i = pow2 i.
Proof.
  intros Hp Hi. unfold shl_weight, pow2. apply shl_1_small; [lia|].
  assert (2 ^ Z.of_nat i < 2 ^ Z.of_nat n) by (apply Z.pow_lt_mono_r; lia).
  lia.
Qed.

Lemma lin_shl_weight_pow2 n out :
  2 ^ Z.of_nat n <= p -> lin (shl_weight p) out n = lin pow2 out n.
Proof.
  intros Hp. apply lin_ext. intros i Hi.
  rewrite (shl_weight_pow2 n) by assumption. reflexivity.
Qed.

Lemma forallb_seq_iff (f : nat -> bool) n :
  forallb f (seq 0 n) = true <-> forall i, (i < n)%nat -> f i = true.
Proof.
  rewrite forallb_forall. split.
  - intros H i Hi. apply H. apply in_seq. lia.
  - intros H i Hi. apply in_seq in Hi. apply H. lia.
Qed.

Lemma forallb_in_field_nth out i :
  forallb (Circom.in_field p) out = true -> (i < length out)%nat ->
  0 <= nth i out 0 < p.
Proof.
  intros H Hi. rewrite forallb_forall in H.
  apply in_field_iff. apply H. apply nth_In. assumption.
Qed.

(** *** The constraint system of Num2Bits(n), for [2^n] within the field

    It holds of exactly one assignment per input below [2^n], the bits of
    the input, and of none for another input. *)
Lemma Num2Bits_constraints_iff n s :
  Z.prime p -> 2 ^ Z.of_nat n <= p ->
  (Num2Bits_constraints p n s = true <->
   0 <= n2b_in s < 2 ^ Z.of_nat n /\ s = Num2Bits_assignment n (n2b_in s)).
Proof.
  intros Hprime Hn. pose proof (Z.prime_ge_2 _ Hprime) as Hp2.
  destruct s as [x out]. unfold Num2Bits_constraints, Num2Bits_assignment.
  rewrite Num2Bits_loop_spec. cbn [n2b_in n2b_out].
  rewrite lin_shl_weight_pow2 by assumption.
  unfold Num2Bits_signals_ok. cbn [n2b_in n2b_out].
  split.
  - intros H. bool_to_prop.
    match goal with H : forallb _ (seq 0 n) = true |- _ =>
      rewrite forallb_seq_iff in H; rename H into Hbool end.
    match goal with H : forallb _ out = true |- _ => rename H into Hfld end.
    match goal with H : length out = n |- _ => rename H into Hlen end.
    assert (Hbits : forall i, (i < n)%nat -> is_bit (nth i out 0)).
    { intros i Hi. apply (boolean_constraint_iff p); auto.
      apply forallb_in_field_nth; [assumption|lia]. }
    pose proof (lin_bits_range out n Hbits) as Hrange.
    rewrite Z.mod_small in * by lia.
    split; [lia|]. f_equal.
    apply (nth_ext _ _ 0 0).
    + rewrite length_bits_of. assumption.
    + intros i Hi. rewrite nth_bits_of by lia.
      apply (lin_bits_unique out n); auto; lia.
  - intros [Hx Heq]. injection Heq as Hout. rewrite Hout.
    rewrite lin_bits_of, (Z.mod_small x) by lia.
    rewrite (Z.mod_small x) by lia.
    rewrite Z.eqb_refl, length_bits_of, Nat.eqb_refl.
    rewrite !andb_true_r. rewrite !andb_true_iff. repeat split.
    + apply in_field_iff. lia.
    + apply forallb_forall. intros b Hb. apply in_field_iff.
      unfold bits_of in Hb. apply in_map_iff in Hb.
      destruct Hb as [i [<- _]]. destruct (Z.testbit x (Z.of_nat i)); simpl; lia.
    + apply forallb_seq_iff. intros i Hi. rewrite nth_bits_of by assumption.
      apply boolean_constraint_b2z. lia.
Qed.

(** the witness program of Num2Bits(n): for any [n] that circom can
    iterate on, the bits of the input, and the input is their sum when
    it has [n] bits *)
Lemma Num2Bits_witness_fits n x :
  1 < p -> Z.of_nat n <= p / 2 -> 0 <= x < p -> x < 2 ^ Z.of_nat n ->
  Num2Bits_witness p n x = Some (Num2Bits_assignment n x).
Proof.
  intros Hp Hn Hx Hfit. unfold Num2Bits_witness.
  rewrite Num2Bits_wloop_spec by assumption.
  assert (E : lin (shl_weight p) (bits_of n x) n mod p = x).
  { rewrite (lin_mod_ext p _ pow2 _ (bits_of n x)).
    - rewrite lin_bits_of. rewrite (Z.mod_small x (2 ^ _)) by lia.
      apply Z.mod_small; lia.
    - intros i Hi. rewrite nth_bits_of by assumption.
      destruct (Z_lt_le_dec (Z.of_nat i) (Circom.bits p)) as [Hlow|Hhigh].
      + unfold shl_weight. rewrite shl_1_low by lia.
        rewrite Z.mul_mod_idemp_r by lia. reflexivity.
      + assert (Hbit : Z.testbit x (Z.of_nat i) = false).
        { destruct (Z.eq_dec x 0) as [->|Hx0]; [apply Z.bits_0|].
          apply Z.bits_above_log2; [lia|]. unfold Circom.bits in Hhigh.
          assert (Z.log2 x <= Z.log2 p) by (apply Z.log2_le_mono; lia).
          lia. }
        rewrite Hbit. reflexivity. }
  rewrite E, Z.eqb_refl. reflexivity.
Qed.

(** for [2^n] within the field: the program succeeds exactly on inputs
    of [n] bits *)
Lemma Num2Bits_witness_spec n x :
  1 < p -> 2 ^ Z.of_nat n <= p -> 0 <= x < p ->
  Num2Bits_witness p n x =
  if x <? 2 ^ Z.of_nat n then Some (Num2Bits_assignment n x) else None.
Proof.
  intros Hp Hn Hx.
  assert (Hhalf : Z.of_nat n <= p / 2) by (apply half_ge_exponent; lia).
  destruct (Z.ltb_spec x (2 ^ Z.of_nat n)) as [Hfit|Hbig].
  - apply Num2Bits_witness_fits; assumption.
  - unfold Num2Bits_witness. rewrite Num2Bits_wloop_spec by assumption.
    rewrite lin_shl_weight_pow2, lin_bits_of by assumption.
    assert (0 < 2 ^ Z.of_nat n) by (apply Z.pow_pos_nonneg; lia).
    pose proof (Z.mod_pos_bound x (2 ^ Z.of_nat n)).
    rewrite (Z.mod_small (x mod _) p) by lia.
    destruct (Z.eqb_spec (x mod 2 ^ Z.of_nat n) x); [lia|reflexivity].
Qed.

End Num2BitsFacts.

Section Num2BitsAnyWidth.
Variable p : Z.


(** the assignment of the witness program satisfies the constraints,
    whatever [n] *)
Lemma Num2Bits_assignment_satisfies n x :
  1 < p -> Z.of_nat n <= p / 2 -> 0 <= x < p -> x < 2 ^ Z.of_nat n ->
  Num2Bits_constraints p n (Num2Bits_assignment n x) = true.
Proof.
  intros Hp Hn Hx Hfit.
  pose proof (Num2Bits_witness_fits p n x Hp Hn Hx Hfit) as Hw.
  unfold Num2Bits_witness in Hw.
  rewrite Num2Bits_wloop_spec in Hw by assumption.
  destruct (Z.eqb_spec (lin (shl_weight p) (bits_of n x) n mod p) x) as [E|];
    [clear Hw|discriminate].
  unfold Num2Bits_constraints, Num2Bits_assignment, Num2Bits_signals_ok.
  rewrite Num2Bits_loop_spec. cbn [n2b_in n2b_out].
  rewrite E, Z.eqb_refl, length_bits_of, Nat.eqb_refl.
  rewrite !andb_true_r. rewrite !andb_true_iff. repeat split.
  - apply in_field_iff. lia.
  - apply forallb_forall. intros b Hb. apply in_field_iff.
    unfold bits_of in Hb. apply in_map_iff in Hb.
    destruct Hb as [i [<- _]]. destruct (Z.testbit x (Z.of_nat i)); simpl; lia.
  - apply forallb_seq_iff. intros i Hi. rewrite nth_bits_of by assumption.
    apply boolean_constraint_b2z. lia.
Qed.


End Num2BitsAnyWidth.

(** ** The comparators and the range proof *)

Section ComparatorFacts.
Variable p : Z.
Hypothesis p_prime : Z.prime p.
Variable n : nat.
Hypothesis n_fits : 2 ^ (Z.of_nat n + 1) <= p.

Let p_ge_2 : 2 <= p := Z.prime_ge_2 _ p_prime.

Lemma pow2_succ_double : 2 ^ (Z.of_nat n + 1) = 2 * 2 ^ Z.of_nat n.
Proof. rewrite Z.pow_add_r by lia. lia. Qed.

Lemma pow2_n_pos : 0 < 2 ^ Z.of_nat n.
Proof. apply Z.pow_pos_nonneg; lia. Qed.

(** the biased difference is computed without reduction *)
Lemma LessThan_shifted_exact a b :
  0 <= a < 2 ^ Z.of_nat n -> 0 <= b < 2 ^ Z.of_nat n ->
  LessThan_shifted p n a b = a + 2 ^ Z.of_nat n - b.
Proof.
  intros Ha Hb. pose proof pow2_succ_double as Hd. pose proof pow2_n_pos as Hpos.
  unfold LessThan_shifted, Circom.sub, Circom.add.
  rewrite shl_1_small by lia.
  rewrite Zminus_mod_idemp_l. apply Z.mod_small. lia.
Qed.

(** bit [n] of the biased difference tells whether there was a borrow *)
Lemma borrow_bit a b :
  0 <= a < 2 ^ Z.of_nat n -> 0 <= b < 2 ^ Z.of_nat n ->
  Z.testbit (a + 2 ^ Z.of_nat n - b) (Z.of_nat n) = (b <=? a).
Proof.
  intros Ha Hb. pose proof pow2_n_pos as Hpos.
  assert (E : Z.b2z (Z.testbit (a + 2 ^ Z.of_nat n - b) (Z.of_nat n)) =
              ((a + 2 ^ Z.of_nat n - b) / 2 ^ Z.of_nat n) mod 2)
    by (apply Z.testbit_spec'; lia).
  destruct (Z.leb_spec b a) as [Hle|Hlt].
  - rewrite <- (Z.div_unique_pos (a + 2 ^ Z.of_nat n - b) (2 ^ Z.of_nat n) 1 (a - b))
      in E by lia.
    destruct (Z.testbit _ _); [reflexivity|discriminate].
  - rewrite Z.div_small in E by lia.
    destruct (Z.testbit _ _); [discriminate|reflexivity].
Qed.

Lemma sub_1_b2z (c : bool) : Circom.sub p 1 (Z.b2z c) = Z.b2z (negb c).
Proof.
  unfold Circom.sub. destruct c; simpl.
  - apply Z.mod_0_l; lia.
  - apply Z.mod_small; lia.
Qed.

Lemma lt_out_value a b :
  Z.b2z (negb (b <=? a)) = if a <? b then 1 else 0.
Proof.
  destruct (Z.leb_spec b a), (Z.ltb_spec a b); try lia; reflexivity.
Qed.

(** *** LessThan(n): the one satisfying assignment per pair of inputs *)
Lemma LessThan_constraints_iff s :
  0 <= lt_in0 s < 2 ^ Z.of_nat n -> 0 <= lt_in1 s < 2 ^ Z.of_nat n ->
  (LessThan_constraints p n s = true <->
   s = LessThan_assignment n (lt_in0 s) (lt_in1 s)).
Proof.
  intros Ha Hb. pose proof pow2_succ_double as Hd. pose proof pow2_n_pos as Hpos.
  assert (Hfit : 2 ^ Z.of_nat (n + 1) <= p)
    by (rewrite Nat2Z.inj_add; exact n_fits).
  destruct s as [a b o s2]. cbn [lt_in0 lt_in1] in *.
  unfold LessThan_constraints, LessThan_assignment. cbn [lt_in0 lt_in1 lt_out lt_n2b].
  rewrite LessThan_shifted_exact by assumption.
  split.
  - intros H. bool_to_prop.
    match goal with H : Num2Bits_constraints _ _ _ = true |- _ =>
      apply Num2Bits_constraints_iff in H; auto; destruct H as [_ Hs2] end.
    match goal with H : n2b_in s2 = _ |- _ => rewrite H in Hs2 end.
    subst s2. f_equal.
    match goal with H : o = _ |- _ => rewrite H end.
    cbn [Num2Bits_assignment n2b_out].
    rewrite nth_bits_of by lia. rewrite borrow_bit by assumption.
    rewrite sub_1_b2z. apply lt_out_value.
  - intros Heq. injection Heq as Ho Hs2. subst s2.
    cbn [Num2Bits_assignment n2b_out n2b_in].
    rewrite nth_bits_of by lia. rewrite borrow_bit by assumption.
    rewrite sub_1_b2z, lt_out_value, <- Ho.
    rewrite !Z.eqb_refl, !andb_true_r.
    rewrite !andb_true_iff. repeat split.
    + apply in_field_iff; lia.
    + apply in_field_iff; lia.
    + apply in_field_iff. rewrite Ho. destruct (a <? b); lia.
    + apply Num2Bits_constraints_iff; auto.
      cbn [Num2Bits_assignment n2b_in]. split; [|reflexivity].
      rewrite Nat2Z.inj_add. change (Z.of_nat 1) with 1. lia.
Qed.

Lemma LessThan_witness_spec a b :
  0 <= a < 2 ^ Z.of_nat n -> 0 <= b < 2 ^ Z.of_nat n ->
  LessThan_witness p n (a, b) = Some (LessThan_assignment n a b).
Proof.
  intros Ha Hb. pose proof pow2_succ_double as Hd. pose proof pow2_n_pos as Hpos.
  assert (Hfit : 2 ^ Z.of_nat (n + 1) <= p)
    by (rewrite Nat2Z.inj_add; exact n_fits).
  unfold LessThan_witness. cbn [fst snd].
  rewrite LessThan_shifted_exact by assumption.
  rewrite Num2Bits_witness_spec by (try assumption; lia).
  rewrite Nat2Z.inj_add. change (Z.of_nat 1) with 1.
  destruct (Z.ltb_spec (a + 2 ^ Z.of_nat n - b) (2 ^ (Z.of_nat n + 1))); [|lia].
  unfold LessThan_assignment. f_equal. f_equal.
  cbn [Num2Bits_assignment n2b_out].
  rewrite nth_bits_of by lia. rewrite borrow_bit by assumption.
  rewrite sub_1_b2z. apply lt_out_value.
Qed.

Lemma sub_1_ite (c : bool) :
  Circom.sub p 1 (if c then 1 else 0) = if c then 0 else 1.
Proof.
  change (if c then 1 else 0) with (Z.b2z c).
  rewrite sub_1_b2z. destruct c; reflexivity.
Qed.

Lemma in_field_ite (c : bool) : Circom.in_field p (if c then 1 else 0) = true.
Proof. apply in_field_iff. destruct c; lia. Qed.

Lemma in_range_in_field x :
  0 <= x < 2 ^ Z.of_nat n -> Circom.in_field p x = true.
Proof.
  intros Hx. pose proof pow2_succ_double. pose proof pow2_n_pos.
  apply in_field_iff. lia.
Qed.

Lemma in_field_one : Circom.in_field p 1 = true.
Proof. apply in_field_iff. lia. Qed.

Lemma ltb_negb_leb a b : (if a <? b then 0 else 1) = if b <=? a then 1 else 0.
Proof.
  destruct (Z.leb_spec b a), (Z.ltb_spec a b); try lia; reflexivity.
Qed.

(** *** GreaterThan(n) *)
Lemma GreaterThan_constraints_iff s :
  0 <= gt_in0 s < 2 ^ Z.of_nat n -> 0 <= gt_in1 s < 2 ^ Z.of_nat n ->
  (GreaterThan_constraints p n s = true <->
   s = GreaterThan_assignment n (gt_in0 s) (gt_in1 s)).
Proof.
  intros Ha Hb. destruct s as [a b o l]. cbn [gt_in0 gt_in1] in *.
  unfold GreaterThan_constraints, GreaterThan_assignment.
  cbn [gt_in0 gt_in1 gt_out gt_lt].
  split.
  - intros H. bool_to_prop.
    match goal with H : LessThan_constraints _ _ _ = true |- _ =>
      apply LessThan_constraints_iff in H; [|lia..]; rename H into Hl end.
    repeat match goal with H : _ l = _ |- _ => rewrite H in * end.
    subst l o. reflexivity.
  - intros Heq. injection Heq as Ho Hl. subst l.
    cbn [LessThan_assignment lt_in0 lt_in1 lt_out].
    rewrite <- Ho, !Z.eqb_refl, !andb_true_r.
    rewrite !andb_true_iff. repeat split.
    + apply in_range_in_field; assumption.
    + apply in_range_in_field; assumption.
    + rewrite Ho. apply in_field_ite.
    + apply LessThan_constraints_iff; auto.
Qed.

Lemma GreaterThan_witness_spec a b :
  0 <= a < 2 ^ Z.of_nat n -> 0 <= b < 2 ^ Z.of_nat n ->
  GreaterThan_witness p n (a, b) = Some (GreaterThan_assignment n a b).
Proof.
  intros Ha Hb. unfold GreaterThan_witness. cbn [fst snd].
  rewrite LessThan_witness_spec by assumption. reflexivity.
Qed.

(** *** GreaterEqThan(n) *)
Lemma GreaterEqThan_constraints_iff s :
  0 <= ge_in0 s < 2 ^ Z.of_nat n -> 0 <= ge_in1 s < 2 ^ Z.of_nat n ->
  (GreaterEqThan_constraints p n s = true <->
   s = GreaterEqThan_assignment n (ge_in0 s) (ge_in1 s)).
Proof.
  intros Ha Hb. destruct s as [a b o l]. cbn [ge_in0 ge_in1] in *.
  unfold GreaterEqThan_constraints, GreaterEqThan_assignment.
  cbn [ge_in0 ge_in1 ge_out ge_lt].
  split.
  - intros H. bool_to_prop.
    match goal with H : LessThan_constraints _ _ _ = true |- _ =>
      apply LessThan_constraints_iff in H; [|lia..]; rename H into Hl end.
    repeat match goal with H : _ l = _ |- _ => rewrite H in * end.
    subst l o. cbn [LessThan_assignment lt_out].
    rewrite sub_1_ite, ltb_negb_leb. reflexivity.
  - intros Heq. injection Heq as Ho Hl. subst l.
    cbn [LessThan_assignment lt_in0 lt_in1 lt_out].
    rewrite sub_1_ite, ltb_negb_leb.
    rewrite <- Ho, !Z.eqb_refl, !andb_true_r.
    rewrite !andb_true_iff. repeat split.
    + apply in_range_in_field; assumption.
    + apply in_range_in_field; assumption.
    + rewrite Ho. apply in_field_ite.
    + apply LessThan_constraints_iff; auto.
Qed.

Lemma GreaterEqThan_witness_spec a b :
  0 <= a < 2 ^ Z.of_nat n -> 0 <= b < 2 ^ Z.of_nat n ->
  GreaterEqThan_witness p n (a, b) = Some (GreaterEqThan_assignment n a b).
Proof.
  intros Ha Hb. unfold GreaterEqThan_witness. cbn [fst snd].
  rewrite LessThan_witness_spec by assumption.
  unfold GreaterEqThan_assignment. cbn [LessThan_assignment lt_out].
  rewrite sub_1_ite, ltb_negb_leb. reflexivity.
Qed.

(** *** LessEqThan(n) *)
Lemma LessEqThan_constraints_iff s :
  0 <= le_in0 s < 2 ^ Z.of_nat n -> 0 <= le_in1 s < 2 ^ Z.of_nat n ->
  (LessEqThan_constraints p n s = true <->
   s = LessEqThan_assignment n (le_in0 s) (le_in1 s)).
Proof.
  intros Ha Hb. destruct s as [a b o g]. cbn [le_in0 le_in1] in *.
  unfold LessEqThan_constraints, LessEqThan_assignment.
  cbn [le_in0 le_in1 le_out le_gt].
  split.
  - intros H. bool_to_prop.
    match goal with H : GreaterThan_constraints _ _ _ = true |- _ =>
      apply GreaterThan_constraints_iff in H; [|lia..]; rename H into Hg end.
    repeat match goal with H : _ g = _ |- _ => rewrite H in * end.
    subst g o. cbn [GreaterThan_assignment gt_out].
    rewrite sub_1_ite, ltb_negb_leb. reflexivity.
  - intros Heq. injection Heq as Ho Hg. subst g.
    cbn [GreaterThan_assignment gt_in0 gt_in1 gt_out].
    rewrite sub_1_ite, ltb_negb_leb.
    rewrite <- Ho, !Z.eqb_refl, !andb_true_r.
    rewrite !andb_true_iff. repeat split.
    + apply in_range_in_field; assumption.
    + apply in_range_in_field; assumption.
    + rewrite Ho. apply in_field_ite.
    + apply GreaterThan_constraints_iff; auto.
Qed.

Lemma LessEqThan_witness_spec a b :
  0 <= a < 2 ^ Z.of_nat n -> 0 <= b < 2 ^ Z.of_nat n ->
  LessEqThan_witness p n (a, b) = Some (LessEqThan_assignment n a b).
Proof.
  intros Ha Hb. unfold LessEqThan_witness. cbn [fst snd].
  rewrite GreaterThan_witness_spec by assumption.
  unfold LessEqThan_assignment. cbn [GreaterThan_assignment gt_out].
  rewrite sub_1_ite, ltb_negb_leb. reflexivity.
Qed.

(** *** RangeProof(n) *)

Lemma mul_bits_one (c d : bool) :
  Circom.mul p (if c then 1 else 0) (if d then 1 else 0) = 1 <->
  c = true /\ d = true.
Proof.
  unfold Circom.mul. destruct c, d; simpl;
    rewrite ?Z.mod_0_l, ?Z.mod_1_l by lia; intuition (try discriminate; lia).
Qed.

(** the constraint system holds of one assignment when the value is
    within the bounds, and of none when it is not *)
Lemma RangeProof_constraints_iff s :
  0 <= value s < 2 ^ Z.of_nat n ->
  0 <= minValue s < 2 ^ Z.of_nat n ->
  0 <= maxValue s < 2 ^ Z.of_nat n ->
  (RangeProof_constraints p n s = true <->
   minValue s <= value s <= maxValue s /\
   s = RangeProof_assignment n (value s) (minValue s) (maxValue s)).
Proof.
  intros Hv Hmn Hmx. destruct s as [v mn mx vld am bm ge le].
  cbn [value minValue maxValue] in *.
  unfold RangeProof_constraints, RangeProof_assignment.
  cbn [value minValue maxValue valid aboveMin belowMax gtMin ltMax].
  split.
  - intros H. bool_to_prop.
    match goal with H : GreaterEqThan_constraints _ _ _ = true |- _ =>
      apply GreaterEqThan_constraints_iff in H; [|lia..]; rename H into Hge end.
    match goal with H : LessEqThan_constraints _ _ _ = true |- _ =>
      apply LessEqThan_constraints_iff in H; [|lia..]; rename H into Hle end.
    repeat match goal with H : _ ge = _ |- _ => rewrite H in * end.
    repeat match goal with H : _ le = _ |- _ => rewrite H in * end.
    subst ge le am bm. cbn [GreaterEqThan_assignment LessEqThan_assignment ge_out le_out] in *.
    match goal with H1 : vld = Circom.mul _ _ _, H2 : vld = 1 |- _ =>
      rewrite H2 in H1; symmetry in H1; apply mul_bits_one in H1;
      destruct H1 as [Hc Hd] end.
    rewrite Hc, Hd. subst vld.
    apply Z.leb_le in Hc. apply Z.leb_le in Hd.
    split; [lia|reflexivity].
  - intros [Hrange Heq]. injection Heq as Hvld Ham Hbm Hge Hle.
    subst vld am bm ge le.
    cbn [GreaterEqThan_assignment LessEqThan_assignment
         ge_in0 ge_in1 ge_out le_in0 le_in1 le_out].
    assert (Hc : (mn <=? v) = true) by (apply Z.leb_le; lia).
    assert (Hd : (v <=? mx) = true) by (apply Z.leb_le; lia).
    rewrite Hc, Hd.
    assert (Hone : Circom.mul p 1 1 = 1)
      by (apply (mul_bits_one true true); split; reflexivity).
    rewrite Hone, !Z.eqb_refl, !andb_true_r.
    rewrite !andb_true_iff. repeat split;
      try (apply in_range_in_field; assumption); try apply in_field_one.
    + apply GreaterEqThan_constraints_iff; cbn [ge_in0 ge_in1];
        try assumption.
      unfold GreaterEqThan_assignment. cbn [ge_in0 ge_in1].
      rewrite Hc. reflexivity.
    + apply LessEqThan_constraints_iff; cbn [le_in0 le_in1];
        try assumption.
      unfold LessEqThan_assignment. cbn [le_in0 le_in1].
      rewrite Hd. reflexivity.
Qed.

Lemma RangeProof_witness_spec v mn mx :
  0 <= v < 2 ^ Z.of_nat n ->
  0 <= mn < 2 ^ Z.of_nat n ->
  0 <= mx < 2 ^ Z.of_nat n ->
  RangeProof_witness p n (v, mn, mx) =
  if (mn <=? v) && (v <=? mx)
  then Some (RangeProof_assignment n v mn mx) else None.
Proof.
  intros Hv Hmn Hmx. unfold RangeProof_witness.
  rewrite GreaterEqThan_witness_spec, LessEqThan_witness_spec by assumption.
  cbn [GreaterEqThan_assignment LessEqThan_assignment ge_out le_out].
  destruct (Z.eqb_spec (Circom.mul p (if mn <=? v then 1 else 0)
                                   (if v <=? mx then 1 else 0)) 1) as [E|E].
  - pose proof E as E'. apply mul_bits_one in E' as [Hc Hd].
    rewrite E. unfold RangeProof_assignment.
    rewrite Hc, Hd. reflexivity.
  - destruct (mn <=? v) eqn:Hc, (v <=? mx) eqn:Hd; try reflexivity.
    exfalso. apply E. apply (mul_bits_one true true). split; reflexivity.
Qed.

End ComparatorFacts.

(** ** Primality of the modulus *)

Section Primality.

Lemma trial_division_prime n k : trial_division n k = true -> Z.prime n.
Proof.
  unfold trial_division, no_small_divisor. intros H. bool_to_prop.
  match goal with H : forallb _ _ = true |- _ =>
    rewrite forallb_forall in H; rename H into Hdiv end.
  split; [assumption|]. intros m Hm [c Hc].
  assert (Hcpos : 1 < c) by nia.
  (* the smaller of the two factors is within the range tried *)
  assert (Hsmall : exists d, 1 < d <= Z.of_nat k + 1 /\ (d | n)).
  { destruct (Z_le_gt_dec m c).
    - exists m. split; [nia|]. exists c. assumption.
    - exists c. split; [nia|]. exists m. lia. }
  destruct Hsmall as [d [Hd Hdn]].
  specialize (Hdiv (Z.to_nat d)).
  rewrite Z2Nat.id in Hdiv by lia.
  assert (Hin : In (Z.to_nat d) (seq 2 k)) by (apply in_seq; lia).
  apply Hdiv in Hin. apply negb_true_iff in Hin.
  apply Z.eqb_neq in Hin. apply Hin. apply Z.mod_divide; [lia|assumption].
Qed.

(** every number above 1 has a prime factor *)
Lemma prime_factor_exists n : 1 < n -> exists r, Z.prime r /\ (r | n).
Proof.
  assert (G : forall b : nat, forall n, 1 < n <= Z.of_nat b ->
              exists r, Z.prime r /\ (r | n)).
  { induction b as [|b IH]; intros m Hm; [lia|].
    destruct (prime_dec m) as [Hp|Hnp].
    - exists m. split; [apply prime_alt; assumption|apply Z.divide_refl].
    - apply not_prime_divide in Hnp; [|lia].
      destruct Hnp as [d [Hd Hdm]].
      destruct (IH d) as [r [Hr Hrd]]; [lia|].
      exists r. split; [assumption|]. eapply Z.divide_trans; eassumption. }
  intros Hn. apply (G (Z.to_nat n)). lia.
Qed.

(** exponents of [a] that give 1 modulo [m] are closed under gcd *)
Lemma pow_one_gcd m a x y :
  1 < m -> 0 <= x -> 0 <= y ->
  a ^ x mod m = 1 -> a ^ y mod m = 1 -> a ^ Z.gcd x y mod m = 1.
Proof.
  intros Hm.
  assert (G : forall b : nat, forall y x, 0 <= y <= Z.of_nat b -> 0 <= x ->
              a ^ x mod m = 1 -> a ^ y mod m = 1 ->
              a ^ Z.gcd x y mod m = 1).
  { induction b as [|b IH]; intros y' x' Hy Hx Hax Hay.
    - assert (y' = 0) by lia. subst y'.
      rewrite Z.gcd_0_r, Z.abs_eq by lia. assumption.
    - destruct (Z.eq_dec y' 0) as [->|Hne].
      + rewrite Z.gcd_0_r, Z.abs_eq by lia. assumption.
      + pose proof (Z.mod_pos_bound x' y' ltac:(lia)) as Hr.
        assert (Har : a ^ (x' mod y') mod m = 1).
        { rewrite (Z.div_mod x' y') in Hax by lia.
          pose proof (Z.div_pos x' y' ltac:(lia) ltac:(lia)).
          rewrite Z.pow_add_r, Z.pow_mul_r in Hax by lia.
          rewrite Z.mul_mod, <- Z.mod_pow_l, Hay in Hax by lia.
          rewrite Z.pow_1_l, (Z.mod_1_l m), Z.mul_1_l, Z.mod_mod in Hax by lia.
          assumption. }
        replace (Z.gcd x' y') with (Z.gcd y' (x' mod y'))
          by (rewrite (Z.gcd_comm y'), Z.gcd_mod by lia; apply Z.gcd_comm).
        apply IH; try lia; assumption. }
  intros Hx Hy. apply (G (Z.to_nat y)). lia. assumption.
Qed.

(** the heart of Pocklington's criterion: for a prime factor [r] of [n],
    the prime power [q^e] divides [r - 1] *)
Lemma cert_item_divides n r q e a rest :
  1 < n -> Z.prime q -> Z.prime r -> (r | n) ->
  cert_item_ok n (q, e, a) rest = true ->
  (q ^ e | r - 1) /\ Z.gcd (q ^ e) rest = 1.
Proof.
  intros Hn Hq Hr Hrn H. unfold cert_item_ok in H. bool_to_prop.
  rewrite Zpow_mod_correct in * by lia.
  pose proof (Z.prime_ge_2 _ Hq) as Hq2. pose proof (Z.prime_ge_2 _ Hr) as Hr2.
  match goal with H : (n - 1) mod q ^ e = 0 |- _ => rename H into Hqe end.
  match goal with H : a ^ (n - 1) mod n = 1 |- _ => rename H into Han end.
  match goal with H : Z.gcd _ n = 1 |- _ => rename H into Hgcd end.
  split; [|assumption].
  assert (Hqepos : 0 < q ^ e) by (apply Z.pow_pos_nonneg; lia).
  apply Z.mod_divide in Hqe; [|lia].
  (* modulo r *)
  assert (Har : a ^ (n - 1) mod r = 1).
  { rewrite <- (Z.mod_mod_divide _ n r) by assumption.
    rewrite Han. apply Z.mod_1_l; lia. }
  assert (Hanz : a mod r <> 0).
  { intros Hz. rewrite <- Z.mod_pow_l, Hz in Har.
    rewrite Z.pow_0_l, Z.mod_0_l in Har by lia. discriminate. }
  pose proof (Z.fermat_nz r a Hr Hanz) as Hfermat.
  pose proof (pow_one_gcd r a (n - 1) (r - 1) ltac:(lia) ltac:(lia) ltac:(lia)
                Har Hfermat) as Hg.
  set (g := Z.gcd (n - 1) (r - 1)) in *.
  assert (Hgn : (g | n - 1)) by apply Z.gcd_divide_l.
  assert (Hgr : (g | r - 1)) by apply Z.gcd_divide_r.
  assert (Hgpos : 0 < g).
  { pose proof (Z.gcd_nonneg (n - 1) (r - 1)).
    assert (g <> 0); [|lia]. unfold g. intros Hz.
    apply Z.gcd_eq_0 in Hz. lia. }
  (* q^e divides g, or else g divides (n-1)/q *)
  destruct (Z.BoolSpec_divide (q ^ e) g) as [Hdiv|Hndiv].
  { eapply Z.divide_trans; eassumption. }
  exfalso.
  destruct Hgn as [t Ht].
  assert (Hqt : (q | t)).
  { destruct (Z.BoolSpec_divide q t) as [|Hnq]; [assumption|exfalso].
    apply Hndiv. apply (Z.gauss _ t).
    - rewrite <- Ht. assumption.
    - apply Z.coprime_pow_l; [lia|].
      apply Z.coprime_prime_l; assumption. }
  destruct Hqt as [t' Ht'].
  assert (Hquot : (n - 1) / q = g * t').
  { rewrite Ht, Ht'. replace (t' * q * g) with (g * t' * q) by ring.
    apply Z.div_mul. lia. }
  assert (Ht'pos : 0 <= t') by nia.
  assert (Hone : a ^ ((n - 1) / q) mod r = 1).
  { rewrite Hquot, Z.pow_mul_r by lia.
    rewrite <- Z.mod_pow_l, Hg, Z.pow_1_l by lia. apply Z.mod_1_l; lia. }
  (* but r divides n and a^((n-1)/q) - 1, against the gcd *)
  assert (Hrd : (r | a ^ ((n - 1) / q) mod n - 1)).
  { apply Z.mod_divide; [lia|].
    rewrite Zminus_mod, Z.mod_mod_divide, Hone by assumption.
    rewrite (Z.mod_1_l r) by lia. reflexivity. }
  assert (Hr1 : (r | 1)).
  { rewrite <- Hgcd. apply Z.gcd_greatest; assumption. }
  apply Z.divide_1_r in Hr1. lia.
Qed.

Lemma cert_product_divides n r c :
  1 < n -> Z.prime r -> (r | n) ->
  Forall (fun it => Z.prime (fst (fst it))) c ->
  cert_ok n c = true -> (cert_product c | r - 1).
Proof.
  intros Hn Hr Hrn. induction c as [|[[q e] a] t IH]; intros Hprimes H.
  - simpl. apply Z.divide_1_l.
  - cbn [cert_ok cert_product] in *. apply andb_prop in H. destruct H as [Hit Ht].
    inversion Hprimes as [|? ? Hq Hqs]; subst. cbn [fst] in Hq.
    destruct (cert_item_divides n r q e a _ Hn Hq Hr Hrn Hit) as [Hd Hco].
    specialize (IH Hqs Ht). destruct Hd as [u Hu].
    assert (Hgauss : (cert_product t | u)).
    { apply (Z.gauss _ (q ^ e)).
      - rewrite Z.mul_comm, <- Hu. assumption.
      - rewrite Z.gcd_comm. assumption. }
    destruct Hgauss as [w Hw]. exists w. rewrite Hu, Hw. ring.
Qed.

Lemma cert_product_pos n c :
  Forall (fun it => Z.prime (fst (fst it))) c ->
  cert_ok n c = true -> 0 < cert_product c.
Proof.
  induction 1 as [|[[q e] a] t Hq _ IH]; cbn [cert_product cert_ok]; [lia|].
  intros H. apply andb_prop in H. destruct H as [Hit Ht].
  cbn [fst] in Hq. apply Z.prime_ge_2 in Hq.
  unfold cert_item_ok in Hit. bool_to_prop.
  apply Z.mul_pos_pos; [|auto].
  apply Z.pow_pos_nonneg; lia.
Qed.

(** Pocklington's criterion *)
Theorem pocklington_prime n c :
  Forall (fun it => Z.prime (fst (fst it))) c ->
  pocklington n c = true -> Z.prime n.
Proof.
  intros Hprimes H. unfold pocklington in H. bool_to_prop.
  match goal with H : cert_ok _ _ = true |- _ => rename H into Hc end.
  split; [assumption|]. intros m Hm [k Hk].
  assert (Hkpos : 1 < k) by nia.
  (* a prime factor of the smaller of [m] and [k] *)
  assert (Hsmall : exists d, 1 < d /\ d * d <= n /\ (d | n)).
  { destruct (Z_le_gt_dec m k).
    - exists m. repeat split; try nia. exists k. assumption.
    - exists k. repeat split; try nia. exists m. lia. }
  destruct Hsmall as [d [Hd1 [Hdd Hdn]]].
  destruct (prime_factor_exists d Hd1) as [r [Hr Hrd]].
  pose proof (Z.prime_ge_2 _ Hr).
  assert (Hrn : (r | n)) by (eapply Z.divide_trans; eassumption).
  assert (Hrle : r <= d) by (apply Z.divide_pos_le; [lia|assumption]).
  pose proof (cert_product_divides n r c ltac:(lia) Hr Hrn Hprimes Hc) as HF.
  apply Z.divide_pos_le in HF; [|lia].
  pose proof (cert_product_pos n c Hprimes Hc).
  nia.
Qed.

End Primality.

Lemma prime_853 : Z.prime 853.
Proof. apply (trial_division_prime _ 28). vm_compute. reflexivity. Qed.

Lemma prime_983 : Z.prime 983.
Proof. apply (trial_division_prime _ 30). vm_compute. reflexivity. Qed.

Lemma prime_1637 : Z.prime 1637.
Proof. apply (trial_division_prime _ 39). vm_compute. reflexivity. Qed.

Lemma prime_639533339 : Z.prime 639533339.
Proof.
  apply (pocklington_prime _ [(853, 1, 2); (1637, 1, 2)]).
  - repeat apply Forall_cons; try apply Forall_nil; cbn [fst].
    + exact prime_853.
    + exact prime_1637.
  - vm_compute. reflexivity.
Qed.

Lemma prime_65865678001877903 : Z.prime 65865678001877903.
Proof.
  apply (pocklington_prime _ [(639533339, 1, 2)]).
  - apply Forall_cons; [exact prime_639533339|apply Forall_nil].
  - vm_compute. reflexivity.
Qed.

Lemma prime_13818364434197438864469338081 :
  Z.prime 13818364434197438864469338081.
Proof.
  apply (pocklington_prime _ [(65865678001877903, 1, 2)]).
  - apply Forall_cons; [exact prime_65865678001877903|apply Forall_nil].
  - vm_compute. reflexivity.
Qed.

Lemma bn128_prime : Z.prime bn128.
Proof.
  apply (pocklington_prime _
           [(2, 28, 5); (983, 1, 2); (13818364434197438864469338081, 1, 2)]).
  - repeat apply Forall_cons; try apply Forall_nil; cbn [fst].
    + exact Z.prime_2.
    + exact prime_983.
    + exact prime_13818364434197438864469338081.
  - vm_compute. reflexivity.
Qed.

(** ** Building the components *)

Section Build.
Variable p : Z.

Lemma LessThan_assert_iff n : LessThan_assert n = true <-> (n <= 252)%nat.
Proof. unfold LessThan_assert. apply Nat.leb_le. Qed.

Lemma LessThan_built n :
  (n <= 252)%nat ->
  LessThan p n = Some {| constraints := LessThan_constraints p n;
                         witness := LessThan_witness p n |}.
Proof.
  intros Hn. unfold LessThan. apply LessThan_assert_iff in Hn.
  rewrite Hn. reflexivity.
Qed.

Lemma LessThan_refused n : (252 < n)%nat -> LessThan p n = None.
Proof.
  intros Hn. unfold LessThan.
  destruct (LessThan_assert n) eqn:E; [|reflexivity].
  apply LessThan_assert_iff in E. lia.
Qed.

Lemma GreaterThan_built n :
  (n <= 252)%nat ->
  GreaterThan p n = Some {| constraints := GreaterThan_constraints p n;
                            witness := GreaterThan_witness p n |}.
Proof.
  intros Hn. unfold GreaterThan. rewrite LessThan_built by assumption.
  reflexivity.
Qed.

Lemma GreaterEqThan_built n :
  (n <= 252)%nat ->
  GreaterEqThan p n = Some {| constraints := GreaterEqThan_constraints p n;
                              witness := GreaterEqThan_witness p n |}.
Proof.
  intros Hn. unfold GreaterEqThan. rewrite LessThan_built by assumption.
  reflexivity.
Qed.

Lemma LessEqThan_built n :
  (n <= 252)%nat ->
  LessEqThan p n = Some {| constraints := LessEqThan_constraints p n;
                           witness := LessEqThan_witness p n |}.
Proof.
  intros Hn. unfold LessEqThan. rewrite GreaterThan_built by assumption.
  reflexivity.
Qed.

Lemma RangeProof_built n :
  (n <= 252)%nat ->
  RangeProof p n = Some {| constraints := RangeProof_constraints p n;
                           witness := RangeProof_witness p n |}.
Proof.
  intros Hn. unfold RangeProof.
  rewrite GreaterEqThan_built, LessEqThan_built by assumption.
  reflexivity.
Qed.

Lemma RangeProof_refused n : (252 < n)%nat -> RangeProof p n = None.
Proof.
  intros Hn. unfold RangeProof, GreaterEqThan.
  rewrite LessThan_refused by assumption. reflexivity.
Qed.

(** a field of 254 bits or more has room for the [n + 1] bits of every
    comparator that passes the assertion *)
Lemma fits_of_assert n :
  (n <= 252)%nat -> 2 ^ 253 < p -> 2 ^ (Z.of_nat n + 1) <= p.
Proof.
  intros Hn Hp.
  assert (2 ^ (Z.of_nat n + 1) <= 2 ^ 253) by (apply Z.pow_le_mono_r; lia).
  lia.
Qed.

End Build.

(** ** The circuit of the build *)

Lemma bn128_254_bits : 2 ^ 253 < bn128.
Proof. reflexivity. Qed.

Lemma main_built : main = Some main_component.
Proof. reflexivity. Qed.

(** the examples of the specification, run on the witness program of
    [main] and checked against its constraints *)
Example main_accepts_inside :
  option_map valid (witness main_component (150, 100, 200)) = Some 1.
Proof. vm_compute. reflexivity. Qed.

Example main_rejects_below :
  witness main_component (50, 100, 200) = None.
Proof. vm_compute. reflexivity. Qed.

Example main_rejects_above :
  witness main_component (201, 100, 200) = None.
Proof. vm_compute. reflexivity. Qed.

Example main_accepts_lower_bound :
  option_map (constraints main_component)
    (witness main_component (100, 100, 200)) = Some true.
Proof. vm_compute. reflexivity. Qed.

Example main_accepts_upper_bound :
  option_map (constraints main_component)
    (witness main_component (200, 100, 200)) = Some true.
Proof. vm_compute. reflexivity. Qed.

(** Num2Bits is sound only while [2^n] is within the field: at 254 bits
    the input 0 has, besides its own bits, the bits of the modulus for
    satisfying assignment. LessThan stays clear of it, with [n + 1 <= 253]. *)
Remark Num2Bits_254_second_assignment :
  Num2Bits_constraints bn128 254 (Num2Bits_assignment 254 0) = true
  /\ Num2Bits_constraints bn128 254
       {| n2b_in := 0; n2b_out := bits_of 254 bn128 |} = true
  /\ bits_of 254 bn128 <> bits_of 254 0.
Proof.
  split; [vm_compute; reflexivity|].
  split; [vm_compute; reflexivity|].
  vm_compute. discriminate.
Qed.

(** ** The claims *)

(** C1. RangeProof(32), on inputs of 32 bits: the circuit is built; its
    constraint system has a satisfying assignment with these inputs if
    and only if [minValue <= value <= maxValue], bounds included; within
    the bounds the witness program succeeds, on an assignment with
    [valid = 1] that satisfies the constraints; outside it fails. *)
Theorem RangeProof_32_satisfiable_iff (p : Z) (v mn mx : Z) :
  Z.prime p -> 2 ^ 253 < p ->
  0 <= v < 2 ^ 32 -> 0 <= mn < 2 ^ 32 -> 0 <= mx < 2 ^ 32 ->
  exists c, RangeProof p 32 = Some c
  /\ ((exists s, constraints c s = true
                 /\ value s = v /\ minValue s = mn /\ maxValue s = mx)
      <-> mn <= v <= mx)
  /\ (mn <= v <= mx ->
      exists s, witness c (v, mn, mx) = Some s
                /\ valid s = 1 /\ constraints c s = true)
  /\ (v < mn \/ mx < v -> witness c (v, mn, mx) = None)
  /\ (v = mn /\ v <= mx ->
      exists s, witness c (v, mn, mx) = Some s /\ valid s = 1)
  /\ (v = mx /\ mn <= v ->
      exists s, witness c (v, mn, mx) = Some s /\ valid s = 1).
Proof.
  intros Hprime Hbig Hv Hmn Hmx.
  assert (Hfit : 2 ^ (Z.of_nat 32 + 1) <= p)
    by (apply fits_of_assert; [lia|assumption]).
  change (2 ^ 32) with (2 ^ Z.of_nat 32) in Hv, Hmn, Hmx.
  eexists. split; [apply RangeProof_built; lia|]. cbn [constraints witness].
  assert (Hsat : mn <= v <= mx ->
                 RangeProof_constraints p 32 (RangeProof_assignment 32 v mn mx)
                 = true).
  { intros Hr. apply RangeProof_constraints_iff; auto. }
  assert (Hwit : mn <= v <= mx ->
                 RangeProof_witness p 32 (v, mn, mx)
                 = Some (RangeProof_assignment 32 v mn mx)).
  { intros Hr. rewrite RangeProof_witness_spec by assumption.
    destruct (Z.leb_spec mn v), (Z.leb_spec v mx); try lia. reflexivity. }
  split; [split|split; [|split; [|split]]].
  - intros [s [Hs [<- [<- <-]]]].
    apply RangeProof_constraints_iff in Hs; auto. tauto.
  - intros Hr. exists (RangeProof_assignment 32 v mn mx). auto.
  - intros Hr. exists (RangeProof_assignment 32 v mn mx). auto.
  - intros Hout. rewrite RangeProof_witness_spec by assumption.
    destruct (Z.leb_spec mn v), (Z.leb_spec v mx); try lia; reflexivity.
  - intros [-> Hle]. exists (RangeProof_assignment 32 mn mn mx).
    split; [apply Hwit; lia|reflexivity].
  - intros [-> Hle]. exists (RangeProof_assignment 32 mx mn mx).
    split; [apply Hwit; lia|reflexivity].
Qed.

Lemma RangeProof_32_satisfiable_iff_witness :
  (Z.prime bn128) /\
  (2 ^ 253 < bn128) /\
  (0 <= 150 < 2 ^ 32) /\
  (0 <= 100 < 2 ^ 32) /\
  (0 <= 200 < 2 ^ 32) /\
  (exists c, RangeProof bn128 32 = Some c
  /\ ((exists s, constraints c s = true
                 /\ value s = 150 /\ minValue s = 100 /\ maxValue s = 200)
      <-> 100 <= 150 <= 200)
  /\ (100 <= 150 <= 200 ->
      exists s, witness c (150, 100, 200) = Some s
                /\ valid s = 1 /\ constraints c s = true)
  /\ (150 < 100 \/ 200 < 150 -> witness c (150, 100, 200) = None)
  /\ (150 = 100 /\ 150 <= 200 ->
      exists s, witness c (150, 100, 200) = Some s /\ valid s = 1)
  /\ (150 = 200 /\ 100 <= 150 ->
      exists s, witness c (150, 100, 200) = Some s /\ valid s = 1)).
Proof.
  assert (h1 : Z.prime bn128)
    by (exact bn128_prime).
  assert (h2 : 2 ^ 253 < bn128)
    by (exact bn128_254_bits).
  assert (h3 : 0 <= 150 < 2 ^ 32)
    by (split; [discriminate|reflexivity]).
  assert (h4 : 0 <= 100 < 2 ^ 32)
    by (split; [discriminate|reflexivity]).
  assert (h5 : 0 <= 200 < 2 ^ 32)
    by (split; [discriminate|reflexivity]).
  exact
    (conj h1 (conj h2 (conj h3 (conj h4 (conj h5 (RangeProof_32_satisfiable_iff bn128 150 100 200 h1 h2 h3 h4 h5)))))).
Defined.

(** C2. In every satisfying assignment of RangeProof, [valid] is 1: the
    constraint [valid === 1] leaves no satisfying assignment with
    [valid = 0], in any field; and over a prime field of 254 bits or more
    a value outside the bounds (all three inputs of [n] bits) leaves no
    satisfying assignment at all. *)
Theorem RangeProof_valid_is_one (p : Z) (n : nat)
  (c : component (Z * Z * Z) RangeProof_signals) :
  RangeProof p n = Some c ->
  (forall s, constraints c s = true -> valid s = 1)
  /\ (forall s, valid s = 0 -> constraints c s = false)
  /\ (Z.prime p -> 2 ^ 253 < p ->
      forall s,
        0 <= value s < 2 ^ Z.of_nat n ->
        0 <= minValue s < 2 ^ Z.of_nat n ->
        0 <= maxValue s < 2 ^ Z.of_nat n ->
        value s < minValue s \/ maxValue s < value s ->
        constraints c s = false).
Proof.
  intros Hc.
  assert (Hn : (n <= 252)%nat).
  { destruct (Nat.le_gt_cases n 252) as [|Hgt]; [assumption|].
    rewrite RangeProof_refused in Hc by assumption. discriminate. }
  rewrite RangeProof_built in Hc by assumption.
  injection Hc as <-. cbn [constraints].
  assert (Hone : forall s, RangeProof_constraints p n s = true -> valid s = 1).
  { intros s Hs. unfold RangeProof_constraints in Hs.
    apply andb_prop in Hs. destruct Hs as [_ Hs]. apply Z.eqb_eq. exact Hs. }
  split; [|split].
  - exact Hone.
  - intros s H0. destruct (RangeProof_constraints p n s) eqn:E; [|reflexivity].
    apply Hone in E. lia.
  - intros Hprime Hbig s Hv Hmn Hmx Hout.
    destruct (RangeProof_constraints p n s) eqn:E; [|reflexivity].
    apply RangeProof_constraints_iff in E; auto using fits_of_assert. lia.
Qed.

Lemma RangeProof_valid_is_one_witness :
  (RangeProof bn128 32%nat = Some main_component) /\
  ((forall s, constraints main_component s = true -> valid s = 1)
  /\ (forall s, valid s = 0 -> constraints main_component s = false)
  /\ (Z.prime bn128 -> 2 ^ 253 < bn128 ->
      forall s,
        0 <= value s < 2 ^ Z.of_nat 32%nat ->
        0 <= minValue s < 2 ^ Z.of_nat 32%nat ->
        0 <= maxValue s < 2 ^ Z.of_nat 32%nat ->
        value s < minValue s \/ maxValue s < value s ->
        constraints main_component s = false)).
Proof.
  assert (h1 : RangeProof bn128 32%nat = Some main_component)
    by (reflexivity).
  exact
    (conj h1 (RangeProof_valid_is_one bn128 32%nat main_component h1)).
Defined.

(** C3. LessThan(n), for [n <= 252] and inputs of [n] bits: the output is
    1 when [in[0] < in[1]] and 0 otherwise, in the assignment of the
    witness program and in every satisfying assignment; it is 1 minus
    cell [n] of the Num2Bits(n+1) decomposition of [in[0] + 2^n - in[1]].
    So it is 1 on [(a, b)] and 0 on [(b, a)] when [a < b], and 0 on
    [(a, a)]. *)
Theorem LessThan_decides_lt (p : Z) (n : nat) (a b : Z) :
  Z.prime p -> 2 ^ 253 < p -> (n <= 252)%nat ->
  0 <= a < 2 ^ Z.of_nat n -> 0 <= b < 2 ^ Z.of_nat n ->
  exists c, LessThan p n = Some c
  /\ (exists s d,
        witness c (a, b) = Some s
        /\ lt_out s = (if a <? b then 1 else 0)
        /\ Num2Bits_witness p (n + 1) (LessThan_shifted p n a b) = Some d
        /\ n2b_in d = a + 2 ^ Z.of_nat n - b
        /\ lt_n2b s = d
        /\ lt_out s = 1 - nth n (n2b_out d) 0)
  /\ (forall s, constraints c s = true -> lt_in0 s = a -> lt_in1 s = b ->
        lt_out s = (if a <? b then 1 else 0)
        /\ n2b_in (lt_n2b s) = a + 2 ^ Z.of_nat n - b
        /\ Num2Bits_constraints p (n + 1) (lt_n2b s) = true
        /\ lt_out s = 1 - nth n (n2b_out (lt_n2b s)) 0)
  /\ (a < b -> option_map lt_out (witness c (a, b)) = Some 1
               /\ option_map lt_out (witness c (b, a)) = Some 0)
  /\ option_map lt_out (witness c (a, a)) = Some 0.
Proof.
  intros Hprime Hbig Hn Ha Hb.
  pose proof (fits_of_assert p n Hn Hbig) as Hfit.
  assert (Hfit' : 2 ^ Z.of_nat (n + 1) <= p)
    by (rewrite Nat2Z.inj_add; exact Hfit).
  pose proof (Z.prime_ge_2 _ Hprime) as Hp2.
  pose proof (pow2_succ_double n) as Hd. pose proof (pow2_n_pos n) as Hpos.
  eexists. split; [apply LessThan_built; assumption|].
  cbn [constraints witness].
  assert (Hbit : 1 - nth n (bits_of (n + 1) (a + 2 ^ Z.of_nat n - b)) 0
                 = if a <? b then 1 else 0).
  { rewrite nth_bits_of by lia. rewrite (borrow_bit n) by assumption.
    destruct (Z.leb_spec b a), (Z.ltb_spec a b); try lia; reflexivity. }
  split; [|split; [|split]].
  - exists (LessThan_assignment n a b).
    exists (Num2Bits_assignment (n + 1) (a + 2 ^ Z.of_nat n - b)).
    rewrite LessThan_witness_spec by assumption.
    rewrite LessThan_shifted_exact by assumption.
    rewrite Num2Bits_witness_spec by (try assumption; lia).
    assert (E : (a + 2 ^ Z.of_nat n - b <? 2 ^ Z.of_nat (n + 1)) = true).
    { apply Z.ltb_lt. rewrite Nat2Z.inj_add. change (Z.of_nat 1) with 1. lia. }
    rewrite E. cbn [LessThan_assignment Num2Bits_assignment lt_out lt_n2b
                      n2b_in n2b_out].
    rewrite Hbit. repeat split; reflexivity.
  - intros s Hs H0 H1.
    pose proof Hs as Hs'.
    apply LessThan_constraints_iff in Hs; auto; try (rewrite ?H0, ?H1; assumption).
    rewrite H0, H1 in Hs. rewrite Hs at 1 2 4 5.
    cbn [LessThan_assignment Num2Bits_assignment lt_out lt_n2b n2b_in n2b_out].
    rewrite Hbit. repeat split; try reflexivity.
    unfold LessThan_constraints in Hs'. bool_to_prop. assumption.
  - intros Hlt. rewrite !LessThan_witness_spec by assumption.
    cbn [option_map LessThan_assignment lt_out].
    destruct (Z.ltb_spec a b), (Z.ltb_spec b a); try lia. split; reflexivity.
  - rewrite LessThan_witness_spec by assumption.
    cbn [option_map LessThan_assignment lt_out].
    rewrite Z.ltb_irrefl. reflexivity.
Qed.

Lemma LessThan_decides_lt_witness :
  (Z.prime bn128) /\
  (2 ^ 253 < bn128) /\
  ((32%nat <= 252)%nat) /\
  (0 <= 100 < 2 ^ Z.of_nat 32%nat) /\
  (0 <= 200 < 2 ^ Z.of_nat 32%nat) /\
  (exists c, LessThan bn128 32%nat = Some c
  /\ (exists s d,
        witness c (100, 200) = Some s
        /\ lt_out s = (if 100 <? 200 then 1 else 0)
        /\ Num2Bits_witness bn128 (32%nat + 1) (LessThan_shifted bn128 32%nat 100 200) = Some d
        /\ n2b_in d = 100 + 2 ^ Z.of_nat 32%nat - 200
        /\ lt_n2b s = d
        /\ lt_out s = 1 - nth 32%nat (n2b_out d) 0)
  /\ (forall s, constraints c s = true -> lt_in0 s = 100 -> lt_in1 s = 200 ->
        lt_out s = (if 100 <? 200 then 1 else 0)
        /\ n2b_in (lt_n2b s) = 100 + 2 ^ Z.of_nat 32%nat - 200
        /\ Num2Bits_constraints bn128 (32%nat + 1) (lt_n2b s) = true
        /\ lt_out s = 1 - nth 32%nat (n2b_out (lt_n2b s)) 0)
  /\ (100 < 200 -> option_map lt_out (witness c (100, 200)) = Some 1
               /\ option_map lt_out (witness c (200, 100)) = Some 0)
  /\ option_map lt_out (witness c (100, 100)) = Some 0).
Proof.
  assert (h1 : Z.prime bn128)
    by (exact bn128_prime).
  assert (h2 : 2 ^ 253 < bn128)
    by (exact bn128_254_bits).
  assert (h3 : (32%nat <= 252)%nat)
    by (apply Nat.leb_le; reflexivity).
  assert (h4 : 0 <= 100 < 2 ^ Z.of_nat 32%nat)
    by (split; [discriminate|reflexivity]).
  assert (h5 : 0 <= 200 < 2 ^ Z.of_nat 32%nat)
    by (split; [discriminate|reflexivity]).
  exact
    (conj h1 (conj h2 (conj h3 (conj h4 (conj h5 (LessThan_decides_lt bn128 32%nat 100 200 h1 h2 h3 h4 h5)))))).
Defined.




(** C5. Num2Bits(n) with [2^n] below the modulus, on a field element that
    does not fit in [n] bits: no assignment satisfies the constraints, the
    witness program fails, and no vector of [n] cells that are 0 or 1 has
    the input for linear combination, over the integers or modulo [p]. *)
Theorem Num2Bits_unsatisfiable_beyond_width (p : Z) (n : nat) (x : Z) :
  Z.prime p -> 2 ^ Z.of_nat n < p -> 0 <= x < p -> 2 ^ Z.of_nat n <= x ->
  exists c, Num2Bits p n = Some c
  /\ (forall s, n2b_in s = x -> constraints c s = false)
  /\ witness c x = None
  /\ (forall out, length out = n -> Forall is_bit out ->
        lin pow2 out n <> x
        /\ lin (shl_weight p) out n mod p <> x).
Proof.
  intros Hprime Hn Hx Hwide.
  pose proof (Z.prime_ge_2 _ Hprime) as Hp2.
  eexists. split; [reflexivity|]. cbn [constraints witness].
  split; [|split].
  - intros s Hin. destruct (Num2Bits_constraints p n s) eqn:E; [|reflexivity].
    apply Num2Bits_constraints_iff in E; auto; lia.
  - rewrite Num2Bits_witness_spec by (try assumption; lia).
    destruct (Z.ltb_spec x (2 ^ Z.of_nat n)); [lia|reflexivity].
  - intros out Hlen Hbits.
    assert (Hnth : forall i, (i < n)%nat -> is_bit (nth i out 0)).
    { intros i Hi. rewrite Forall_forall in Hbits. apply Hbits.
      apply nth_In. lia. }
    pose proof (lin_bits_range out n Hnth) as Hrange.
    rewrite lin_shl_weight_pow2 by lia.
    rewrite Z.mod_small by lia. lia.
Qed.

Lemma Num2Bits_unsatisfiable_beyond_width_witness :
  (Z.prime bn128) /\
  (2 ^ Z.of_nat 33%nat < bn128) /\
  (0 <= 8589934592 < bn128) /\
  (2 ^ Z.of_nat 33%nat <= 8589934592) /\
  (exists c, Num2Bits bn128 33%nat = Some c
  /\ (forall s, n2b_in s = 8589934592 -> constraints c s = false)
  /\ witness c 8589934592 = None
  /\ (forall out, length out = 33%nat -> Forall is_bit out ->
        lin pow2 out 33%nat <> 8589934592
        /\ lin (shl_weight bn128) out 33%nat mod bn128 <> 8589934592)).
Proof.
  assert (h1 : Z.prime bn128)
    by (exact bn128_prime).
  assert (h2 : 2 ^ Z.of_nat 33%nat < bn128)
    by (reflexivity).
  assert (h3 : 0 <= 8589934592 < bn128)
    by (split; [discriminate|reflexivity]).
  assert (h4 : 2 ^ Z.of_nat 33%nat <= 8589934592)
    by (discriminate).
  exact
    (conj h1 (conj h2 (conj h3 (conj h4 (Num2Bits_unsatisfiable_beyond_width bn128 33%nat 8589934592 h1 h2 h3 h4))))).
Defined.

(** C6. The comparators are built under the assertion [n <= 252] of
    LessThan and under it only: LessThan, GreaterThan, GreaterEqThan,
    LessEqThan and RangeProof are refused for every [n] above 252 (253
    among them) and built, with their constraints and witness program,
    for every [n] up to 252. *)
Theorem comparators_built_iff (p : Z) (n : nat) :
  (LessThan p n = None <-> (252 < n)%nat)
  /\ (GreaterThan p n = None <-> (252 < n)%nat)
  /\ (GreaterEqThan p n = None <-> (252 < n)%nat)
  /\ (LessEqThan p n = None <-> (252 < n)%nat)
  /\ (RangeProof p n = None <-> (252 < n)%nat)
  /\ (LessThan p n =
        Some {| constraints := LessThan_constraints p n;
                witness := LessThan_witness p n |} <-> (n <= 252)%nat)
  /\ (GreaterThan p n =
        Some {| constraints := GreaterThan_constraints p n;
                witness := GreaterThan_witness p n |} <-> (n <= 252)%nat)
  /\ (GreaterEqThan p n =
        Some {| constraints := GreaterEqThan_constraints p n;
                witness := GreaterEqThan_witness p n |} <-> (n <= 252)%nat)
  /\ (LessEqThan p n =
        Some {| constraints := LessEqThan_constraints p n;
                witness := LessEqThan_witness p n |} <-> (n <= 252)%nat)
  /\ (RangeProof p n =
        Some {| constraints := RangeProof_constraints p n;
                witness := RangeProof_witness p n |} <-> (n <= 252)%nat)
  /\ LessThan p 253 = None
  /\ RangeProof p 253 = None.
Proof.
  destruct (Nat.le_gt_cases n 252) as [Hle|Hgt].
  - rewrite LessThan_built, GreaterThan_built, GreaterEqThan_built,
      LessEqThan_built, RangeProof_built by assumption.
    repeat split; intros; try discriminate; try lia; try reflexivity.
  - unfold GreaterThan, GreaterEqThan, LessEqThan, RangeProof,
      GreaterEqThan, LessEqThan, GreaterThan.
    rewrite !LessThan_refused by lia.
    repeat split; intros; try discriminate; try lia; try reflexivity.
Qed.

(** C7. Complement laws, for [n <= 252] and inputs of [n] bits: the
    output of GreaterEqThan is 1 minus the output of LessThan, the output
    of LessEqThan is 1 minus the output of GreaterThan, on the same
    inputs; GreaterEqThan gives 1 exactly when [a >= b] and LessEqThan
    exactly when [a <= b]; the outputs of the strict comparators are 0 or
    1. All of it holds of the witness programs and of every satisfying
    assignment. *)
Theorem comparator_complements (p : Z) (n : nat) (a b : Z) :
  Z.prime p -> 2 ^ 253 < p -> (n <= 252)%nat ->
  0 <= a < 2 ^ Z.of_nat n -> 0 <= b < 2 ^ Z.of_nat n ->
  exists clt cgt cge cle,
    LessThan p n = Some clt /\ GreaterThan p n = Some cgt
    /\ GreaterEqThan p n = Some cge /\ LessEqThan p n = Some cle
    /\ (exists l g ge le,
          witness clt (a, b) = Some l /\ witness cgt (a, b) = Some g
          /\ witness cge (a, b) = Some ge /\ witness cle (a, b) = Some le
          /\ ge_out ge = 1 - lt_out l
          /\ le_out le = 1 - gt_out g
          /\ (ge_out ge = 1 <-> b <= a) /\ (ge_out ge = 0 <-> a < b)
          /\ (le_out le = 1 <-> a <= b) /\ (le_out le = 0 <-> b < a)
          /\ is_bit (lt_out l) /\ is_bit (gt_out g))
    /\ (forall s, constraints cge s = true -> ge_in0 s = a -> ge_in1 s = b ->
          ge_out s = 1 - lt_out (ge_lt s)
          /\ is_bit (lt_out (ge_lt s))
          /\ (ge_out s = 1 <-> b <= a) /\ (ge_out s = 0 <-> a < b))
    /\ (forall s, constraints cle s = true -> le_in0 s = a -> le_in1 s = b ->
          le_out s = 1 - gt_out (le_gt s)
          /\ is_bit (gt_out (le_gt s))
          /\ (le_out s = 1 <-> a <= b) /\ (le_out s = 0 <-> b < a)).
Proof.
  intros Hprime Hbig Hn Ha Hb.
  pose proof (fits_of_assert p n Hn Hbig) as Hfit.
  do 4 eexists.
  split; [apply LessThan_built; assumption|].
  split; [apply GreaterThan_built; assumption|].
  split; [apply GreaterEqThan_built; assumption|].
  split; [apply LessEqThan_built; assumption|].
  cbn [constraints witness].
  assert (Hge : ge_out (GreaterEqThan_assignment n a b)
                = 1 - lt_out (ge_lt (GreaterEqThan_assignment n a b))
                /\ is_bit (lt_out (ge_lt (GreaterEqThan_assignment n a b)))
                /\ (ge_out (GreaterEqThan_assignment n a b) = 1 <-> b <= a)
                /\ (ge_out (GreaterEqThan_assignment n a b) = 0 <-> a < b)).
  { cbn [GreaterEqThan_assignment LessThan_assignment ge_out ge_lt lt_out].
    unfold is_bit.
    destruct (Z.leb_spec b a), (Z.ltb_spec a b); try lia;
      repeat split; intros; try lia; auto. }
  assert (Hle : le_out (LessEqThan_assignment n a b)
                = 1 - gt_out (le_gt (LessEqThan_assignment n a b))
                /\ is_bit (gt_out (le_gt (LessEqThan_assignment n a b)))
                /\ (le_out (LessEqThan_assignment n a b) = 1 <-> a <= b)
                /\ (le_out (LessEqThan_assignment n a b) = 0 <-> b < a)).
  { cbn [LessEqThan_assignment GreaterThan_assignment le_out le_gt gt_out].
    unfold is_bit.
    destruct (Z.leb_spec a b), (Z.ltb_spec b a); try lia;
      repeat split; intros; try lia; auto. }
  split; [|split].
  - exists (LessThan_assignment n a b), (GreaterThan_assignment n a b),
      (GreaterEqThan_assignment n a b), (LessEqThan_assignment n a b).
    rewrite LessThan_witness_spec, GreaterThan_witness_spec,
      GreaterEqThan_witness_spec, LessEqThan_witness_spec by assumption.
    destruct Hge as [Hge1 [Hge2 [Hge3 Hge4]]].
    destruct Hle as [Hle1 [Hle2 [Hle3 Hle4]]].
    repeat (split; [first [reflexivity|assumption]|]). assumption.
  - intros s Hs H0 H1.
    apply GreaterEqThan_constraints_iff in Hs; auto;
      try (rewrite ?H0, ?H1; assumption).
    rewrite H0, H1 in Hs. rewrite Hs. exact Hge.
  - intros s Hs H0 H1.
    apply LessEqThan_constraints_iff in Hs; auto;
      try (rewrite ?H0, ?H1; assumption).
    rewrite H0, H1 in Hs. rewrite Hs. exact Hle.
Qed.

Lemma comparator_complements_witness :
  (Z.prime bn128) /\
  (2 ^ 253 < bn128) /\
  ((32%nat <= 252)%nat) /\
  (0 <= 200 < 2 ^ Z.of_nat 32%nat) /\
  (0 <= 100 < 2 ^ Z.of_nat 32%nat) /\
  (exists clt cgt cge cle,
    LessThan bn128 32%nat = Some clt /\ GreaterThan bn128 32%nat = Some cgt
    /\ GreaterEqThan bn128 32%nat = Some cge /\ LessEqThan bn128 32%nat = Some cle
    /\ (exists l g ge le,
          witness clt (200, 100) = Some l /\ witness cgt (200, 100) = Some g
          /\ witness cge (200, 100) = Some ge /\ witness cle (200, 100) = Some le
          /\ ge_out ge = 1 - lt_out l
          /\ le_out le = 1 - gt_out g
          /\ (ge_out ge = 1 <-> 100 <= 200) /\ (ge_out ge = 0 <-> 200 < 100)
          /\ (le_out le = 1 <-> 200 <= 100) /\ (le_out le = 0 <-> 100 < 200)
          /\ is_bit (lt_out l) /\ is_bit (gt_out g))
    /\ (forall s, constraints cge s = true -> ge_in0 s = 200 -> ge_in1 s = 100 ->
          ge_out s = 1 - lt_out (ge_lt s)
          /\ is_bit (lt_out (ge_lt s))
          /\ (ge_out s = 1 <-> 100 <= 200) /\ (ge_out s = 0 <-> 200 < 100))
    /\ (forall s, constraints cle s = true -> le_in0 s = 200 -> le_in1 s = 100 ->
          le_out s = 1 - gt_out (le_gt s)
          /\ is_bit (gt_out (le_gt s))
          /\ (le_out s = 1 <-> 200 <= 100) /\ (le_out s = 0 <-> 100 < 200))).
Proof.
  assert (h1 : Z.prime bn128)
    by (exact bn128_prime).
  assert (h2 : 2 ^ 253 < bn128)
    by (exact bn128_254_bits).
  assert (h3 : (32%nat <= 252)%nat)
    by (apply Nat.leb_le; reflexivity).
  assert (h4 : 0 <= 200 < 2 ^ Z.of_nat 32%nat)
    by (split; [discriminate|reflexivity]).
  assert (h5 : 0 <= 100 < 2 ^ Z.of_nat 32%nat)
    by (split; [discriminate|reflexivity]).
  exact
    (conj h1 (conj h2 (conj h3 (conj h4 (conj h5 (comparator_complements bn128 32%nat 200 100 h1 h2 h3 h4 h5)))))).
Defined.

(** C8. GreaterThan(n) is LessThan(n) on the swapped operands, output
    unchanged, for every pair of inputs: the two witness programs give the
    same output (or fail together), and a satisfying assignment of
    GreaterThan holds a satisfying assignment of LessThan wired to
    [(in[1], in[0])] whose output is its own. For inputs of [n] bits the
    output is 1 exactly when [a > b]. *)
Theorem GreaterThan_swaps_LessThan (p : Z) (n : nat) :
  (n <= 252)%nat ->
  exists clt cgt,
    LessThan p n = Some clt /\ GreaterThan p n = Some cgt
    /\ (forall a b, option_map gt_out (witness cgt (a, b))
                    = option_map lt_out (witness clt (b, a)))
    /\ (forall s, constraints cgt s = true ->
          constraints clt (gt_lt s) = true
          /\ lt_in0 (gt_lt s) = gt_in1 s /\ lt_in1 (gt_lt s) = gt_in0 s
          /\ gt_out s = lt_out (gt_lt s))
    /\ (Z.prime p -> 2 ^ 253 < p ->
        forall a b, 0 <= a < 2 ^ Z.of_nat n -> 0 <= b < 2 ^ Z.of_nat n ->
          option_map gt_out (witness cgt (a, b))
          = Some (if b <? a then 1 else 0)
          /\ (forall s, constraints cgt s = true ->
                gt_in0 s = a -> gt_in1 s = b ->
                (gt_out s = 1 <-> b < a) /\ (gt_out s = 0 <-> a <= b))).
Proof.
  intros Hn. do 2 eexists.
  split; [apply LessThan_built; assumption|].
  split; [apply GreaterThan_built; assumption|].
  cbn [constraints witness].
  split; [|split].
  - intros a b. unfold GreaterThan_witness. cbn [fst snd].
    destruct (LessThan_witness p n (b, a)); reflexivity.
  - intros s Hs. unfold GreaterThan_constraints in Hs. bool_to_prop. auto.
  - intros Hprime Hbig a b Ha Hb.
    pose proof (fits_of_assert p n Hn Hbig) as Hfit.
    split.
    + rewrite GreaterThan_witness_spec by assumption. reflexivity.
    + intros s Hs H0 H1.
      apply GreaterThan_constraints_iff in Hs; auto;
        try (rewrite ?H0, ?H1; assumption).
      rewrite H0, H1 in Hs. rewrite Hs.
      cbn [GreaterThan_assignment gt_out].
      destruct (Z.ltb_spec b a); split; split; intros; try lia.
Qed.

Lemma GreaterThan_swaps_LessThan_witness :
  ((32%nat <= 252)%nat) /\
  (exists clt cgt,
    LessThan bn128 32%nat = Some clt /\ GreaterThan bn128 32%nat = Some cgt
    /\ (forall a b, option_map gt_out (witness cgt (a, b))
                    = option_map lt_out (witness clt (b, a)))
    /\ (forall s, constraints cgt s = true ->
          constraints clt (gt_lt s) = true
          /\ lt_in0 (gt_lt s) = gt_in1 s /\ lt_in1 (gt_lt s) = gt_in0 s
          /\ gt_out s = lt_out (gt_lt s))
    /\ (Z.prime bn128 -> 2 ^ 253 < bn128 ->
        forall a b, 0 <= a < 2 ^ Z.of_nat 32%nat -> 0 <= b < 2 ^ Z.of_nat 32%nat ->
          option_map gt_out (witness cgt (a, b))
          = Some (if b <? a then 1 else 0)
          /\ (forall s, constraints cgt s = true ->
                gt_in0 s = a -> gt_in1 s = b ->
                (gt_out s = 1 <-> b < a) /\ (gt_out s = 0 <-> a <= b)))).
Proof.
  assert (h1 : (32%nat <= 252)%nat)
    by (apply Nat.leb_le; reflexivity).
  exact
    (conj h1 (GreaterThan_swaps_LessThan bn128 32%nat h1)).
Defined.

(** C9. No wraparound in LessThan(n), for [n <= 252] and inputs of [n]
    bits: [1 << n] is [2^n], the sum and the difference are those of the
    integers, the value fed to Num2Bits(n+1) lies in [[1, 2^(n+1) - 1]],
    below [2^(n+1)] and below the modulus; its decomposition in [n + 1]
    bits exists, is worth exactly that integer, and its cell [n] is 1
    exactly when [in[0] >= in[1]]. *)
Theorem LessThan_no_wraparound (p : Z) (n : nat) (a b : Z) :
  Z.prime p -> 2 ^ 253 < p -> (n <= 252)%nat ->
  0 <= a < 2 ^ Z.of_nat n -> 0 <= b < 2 ^ Z.of_nat n ->
  Circom.shl p 1 (Z.of_nat n) = 2 ^ Z.of_nat n
  /\ Circom.add p a (Circom.shl p 1 (Z.of_nat n)) = a + 2 ^ Z.of_nat n
  /\ LessThan_shifted p n a b = a + 2 ^ Z.of_nat n - b
  /\ 1 <= a + 2 ^ Z.of_nat n - b <= 2 ^ (Z.of_nat n + 1) - 1
  /\ 2 ^ (Z.of_nat n + 1) <= p
  /\ (exists d,
        Num2Bits_witness p (n + 1) (LessThan_shifted p n a b) = Some d
        /\ Num2Bits_constraints p (n + 1) d = true
        /\ lin pow2 (n2b_out d) (n + 1) = a + 2 ^ Z.of_nat n - b
        /\ (nth n (n2b_out d) 0 = 1 <-> b <= a)
        /\ (nth n (n2b_out d) 0 = 0 <-> a < b)).
Proof.
  intros Hprime Hbig Hn Ha Hb.
  pose proof (fits_of_assert p n Hn Hbig) as Hfit.
  assert (Hfit' : 2 ^ Z.of_nat (n + 1) <= p)
    by (rewrite Nat2Z.inj_add; exact Hfit).
  pose proof (Z.prime_ge_2 _ Hprime) as Hp2.
  pose proof (pow2_succ_double n) as Hd. pose proof (pow2_n_pos n) as Hpos.
  assert (Hshl : Circom.shl p 1 (Z.of_nat n) = 2 ^ Z.of_nat n)
    by (apply shl_1_small; lia).
  split; [exact Hshl|].
  split; [rewrite Hshl; unfold Circom.add; apply Z.mod_small; lia|].
  split; [apply LessThan_shifted_exact; assumption|].
  split; [lia|]. split; [assumption|].
  exists (Num2Bits_assignment (n + 1) (a + 2 ^ Z.of_nat n - b)).
  rewrite LessThan_shifted_exact by assumption.
  assert (Hx : 0 <= a + 2 ^ Z.of_nat n - b < 2 ^ Z.of_nat (n + 1)).
  { rewrite Nat2Z.inj_add. change (Z.of_nat 1) with 1. lia. }
  split; [|split; [|split]].
  - rewrite Num2Bits_witness_spec by (try assumption; lia).
    destruct (Z.ltb_spec (a + 2 ^ Z.of_nat n - b) (2 ^ Z.of_nat (n + 1)));
      [reflexivity|lia].
  - apply Num2Bits_constraints_iff; auto.
  - cbn [Num2Bits_assignment n2b_out]. rewrite lin_bits_of.
    apply Z.mod_small. assumption.
  - cbn [Num2Bits_assignment n2b_out]. rewrite nth_bits_of by lia.
    rewrite (borrow_bit n) by assumption.
    destruct (Z.leb_spec b a); simpl; split; split; intros; try lia.
Qed.

Lemma LessThan_no_wraparound_witness :
  (Z.prime bn128) /\
  (2 ^ 253 < bn128) /\
  ((252%nat <= 252)%nat) /\
  (0 <= 0 < 2 ^ Z.of_nat 252%nat) /\
  (0 <= 7237005577332262213973186563042994240829374041602535252466099000494570602495 < 2 ^ Z.of_nat 252%nat) /\
  (Circom.shl bn128 1 (Z.of_nat 252%nat) = 2 ^ Z.of_nat 252%nat
  /\ Circom.add bn128 0 (Circom.shl bn128 1 (Z.of_nat 252%nat)) = 0 + 2 ^ Z.of_nat 252%nat
  /\ LessThan_shifted bn128 252%nat 0 7237005577332262213973186563042994240829374041602535252466099000494570602495 = 0 + 2 ^ Z.of_nat 252%nat - 7237005577332262213973186563042994240829374041602535252466099000494570602495
  /\ 1 <= 0 + 2 ^ Z.of_nat 252%nat - 7237005577332262213973186563042994240829374041602535252466099000494570602495 <= 2 ^ (Z.of_nat 252%nat + 1) - 1
  /\ 2 ^ (Z.of_nat 252%nat + 1) <= bn128
  /\ (exists d,
        Num2Bits_witness bn128 (252%nat + 1) (LessThan_shifted bn128 252%nat 0 7237005577332262213973186563042994240829374041602535252466099000494570602495) = Some d
        /\ Num2Bits_constraints bn128 (252%nat + 1) d = true
        /\ lin pow2 (n2b_out d) (252%nat + 1) = 0 + 2 ^ Z.of_nat 252%nat - 7237005577332262213973186563042994240829374041602535252466099000494570602495
        /\ (nth 252%nat (n2b_out d) 0 = 1 <-> 7237005577332262213973186563042994240829374041602535252466099000494570602495 <= 0)
        /\ (nth 252%nat (n2b_out d) 0 = 0 <-> 0 < 7237005577332262213973186563042994240829374041602535252466099000494570602495))).
Proof.
  assert (h1 : Z.prime bn128)
    by (exact bn128_prime).
  assert (h2 : 2 ^ 253 < bn128)
    by (exact bn128_254_bits).
  assert (h3 : (252%nat <= 252)%nat)
    by (apply Nat.leb_le; reflexivity).
  assert (h4 : 0 <= 0 < 2 ^ Z.of_nat 252%nat)
    by (split; [discriminate|reflexivity]).
  assert (h5 : 0 <= 7237005577332262213973186563042994240829374041602535252466099000494570602495 < 2 ^ Z.of_nat 252%nat)
    by (split; [discriminate|reflexivity]).
  exact
    (conj h1 (conj h2 (conj h3 (conj h4 (conj h5 (LessThan_no_wraparound bn128 252%nat 0 7237005577332262213973186563042994240829374041602535252466099000494570602495 h1 h2 h3 h4 h5)))))).
Defined.

(** C10. For inputs of 32 bits, the constraint system of RangeProof(32)
    has at most one satisfying assignment: two assignments that satisfy it
    and agree on [value], [minValue] and [maxValue] agree on every signal,
    the bits of both decompositions included. *)
Theorem RangeProof_32_assignment_unique (p : Z)
  (c : component (Z * Z * Z) RangeProof_signals) (s1 s2 : RangeProof_signals) :
  Z.prime p -> 2 ^ 253 < p ->
  RangeProof p 32 = Some c ->
  0 <= value s1 < 2 ^ 32 ->
  0 <= minValue s1 < 2 ^ 32 ->
  0 <= maxValue s1 < 2 ^ 32 ->
  value s2 = value s1 -> minValue s2 = minValue s1 ->
  maxValue s2 = maxValue s1 ->
  constraints c s1 = true -> constraints c s2 = true ->
  s1 = s2.
Proof.
  intros Hprime Hbig Hc Hv Hmn Hmx Ev Emn Emx H1 H2.
  rewrite RangeProof_built in Hc by lia. injection Hc as <-.
  cbn [constraints] in *.
  assert (Hfit : 2 ^ (Z.of_nat 32 + 1) <= p)
    by (apply fits_of_assert; [lia|assumption]).
  change (2 ^ 32) with (2 ^ Z.of_nat 32) in Hv, Hmn, Hmx.
  apply RangeProof_constraints_iff in H1; auto.
  apply RangeProof_constraints_iff in H2; auto; try (rewrite ?Ev, ?Emn, ?Emx; assumption).
  destruct H1 as [_ ->]. destruct H2 as [_ ->].
  cbn [RangeProof_assignment value minValue maxValue] in *.
  rewrite Ev, Emn, Emx. reflexivity.
Qed.

Lemma RangeProof_32_assignment_unique_witness :
  (Z.prime bn128) /\
  (2 ^ 253 < bn128) /\
  (RangeProof bn128 32 = Some main_component) /\
  (0 <= value (RangeProof_assignment 32%nat 150 100 200) < 2 ^ 32) /\
  (0 <= minValue (RangeProof_assignment 32%nat 150 100 200) < 2 ^ 32) /\
  (0 <= maxValue (RangeProof_assignment 32%nat 150 100 200) < 2 ^ 32) /\
  (value (RangeProof_assignment 32%nat 150 100 200) = value (RangeProof_assignment 32%nat 150 100 200)) /\
  (minValue (RangeProof_assignment 32%nat 150 100 200) = minValue (RangeProof_assignment 32%nat 150 100 200)) /\
  (maxValue (RangeProof_assignment 32%nat 150 100 200) = maxValue (RangeProof_assignment 32%nat 150 100 200)) /\
  (constraints main_component (RangeProof_assignment 32%nat 150 100 200) = true) /\
  (constraints main_component (RangeProof_assignment 32%nat 150 100 200) = true) /\
  ((RangeProof_assignment 32%nat 150 100 200) = (RangeProof_assignment 32%nat 150 100 200)).
Proof.
  assert (h1 : Z.prime bn128)
    by (exact bn128_prime).
  assert (h2 : 2 ^ 253 < bn128)
    by (exact bn128_254_bits).
  assert (h3 : RangeProof bn128 32 = Some main_component)
    by (reflexivity).
  assert (h4 : 0 <= value (RangeProof_assignment 32%nat 150 100 200) < 2 ^ 32)
    by (split; [discriminate|reflexivity]).
  assert (h5 : 0 <= minValue (RangeProof_assignment 32%nat 150 100 200) < 2 ^ 32)
    by (split; [discriminate|reflexivity]).
  assert (h6 : 0 <= maxValue (RangeProof_assignment 32%nat 150 100 200) < 2 ^ 32)
    by (split; [discriminate|reflexivity]).
  assert (h7 : value (RangeProof_assignment 32%nat 150 100 200) = value (RangeProof_assignment 32%nat 150 100 200))
    by (reflexivity).
  assert (h8 : minValue (RangeProof_assignment 32%nat 150 100 200) = minValue (RangeProof_assignment 32%nat 150 100 200))
    by (reflexivity).
  assert (h9 : maxValue (RangeProof_assignment 32%nat 150 100 200) = maxValue (RangeProof_assignment 32%nat 150 100 200))
    by (reflexivity).
  assert (h10 : constraints main_component (RangeProof_assignment 32%nat 150 100 200) = true)
    by (vm_compute; reflexivity).
  assert (h11 : constraints main_component (RangeProof_assignment 32%nat 150 100 200) = true)
    by (vm_compute; reflexivity).
  exact
    (conj h1 (conj h2 (conj h3 (conj h4 (conj h5 (conj h6 (conj h7 (conj h8 (conj h9 (conj h10 (conj h11 (RangeProof_32_assignment_unique bn128 main_component (RangeProof_assignment 32%nat 150 100 200) (RangeProof_assignment 32%nat 150 100 200) h1 h2 h3 h4 h5 h6 h7 h8 h9 h10 h11)))))))))))).
Defined.

(** ** The templates on arbitrary field elements *)

Section AnyInput.
Variable p : Z.
Hypothesis p_prime : Z.prime p.
Variable n : nat.
Hypothesis n_fits : 2 ^ (Z.of_nat n + 1) <= p.

Let p_ge_2 : 2 <= p := Z.prime_ge_2 _ p_prime.

Lemma in_field_mod x : Circom.in_field p (x mod p) = true.
Proof.
  apply in_field_iff. apply Z.mod_pos_bound. lia.
Qed.

(** Num2Bits(n+1): the constraints hold of what the witness program
    returns on the input, and of nothing else *)
Lemma Num2Bits_constraints_by_witness m s :
  2 ^ Z.of_nat m <= p ->
  (Num2Bits_constraints p m s = true <->
   0 <= n2b_in s < p /\ Num2Bits_witness p m (n2b_in s) = Some s).
Proof.
  intros Hm. split.
  - intros H. pose proof H as H'.
    apply Num2Bits_constraints_iff in H; auto. destruct H as [Hr Hs].
    assert (0 < 2 ^ Z.of_nat m) by (apply Z.pow_pos_nonneg; lia).
    split; [lia|].
    rewrite Num2Bits_witness_spec by lia.
    destruct (Z.ltb_spec (n2b_in s) (2 ^ Z.of_nat m)); [|lia].
    rewrite <- Hs. reflexivity.
  - intros [Hx H]. rewrite Num2Bits_witness_spec in H by lia.
    destruct (Z.ltb_spec (n2b_in s) (2 ^ Z.of_nat m)); [|discriminate].
    injection H as H. apply Num2Bits_constraints_iff; auto.
    split; [lia|]. symmetry. exact H.
Qed.

Lemma LessThan_shifted_in_field a b :
  0 <= LessThan_shifted p n a b < p.
Proof. unfold LessThan_shifted, Circom.sub. apply Z.mod_pos_bound. lia. Qed.

(** LessThan(n): the same, whatever the inputs *)
Lemma LessThan_constraints_by_witness s :
  LessThan_constraints p n s = true <->
  (0 <= lt_in0 s < p /\ 0 <= lt_in1 s < p)
  /\ LessThan_witness p n (lt_in0 s, lt_in1 s) = Some s.
Proof.
  assert (Hfit : 2 ^ Z.of_nat (n + 1) <= p)
    by (rewrite Nat2Z.inj_add; exact n_fits).
  destruct s as [a b o d]. cbn [lt_in0 lt_in1].
  unfold LessThan_constraints, LessThan_witness. cbn [lt_in0 lt_in1 lt_out lt_n2b fst snd].
  split.
  - intros H. bool_to_prop.
    repeat match goal with H : Circom.in_field _ _ = true |- _ =>
      apply in_field_iff in H end.
    match goal with H : Num2Bits_constraints _ _ _ = true |- _ =>
      apply Num2Bits_constraints_by_witness in H; [|assumption];
      destruct H as [_ Hw] end.
    match goal with H : n2b_in d = _ |- _ => rewrite H in Hw end.
    rewrite Hw. split; [split; assumption|]. subst o. reflexivity.
  - intros [[Ha Hb] H].
    destruct (Num2Bits_witness p (n + 1) (LessThan_shifted p n a b))
      as [d'|] eqn:Hw; [|discriminate].
    injection H as Ho Hd. subst d'.
    assert (Hin : n2b_in d = LessThan_shifted p n a b).
    { unfold Num2Bits_witness in Hw.
      destruct (fold_left _ _ _) as [[out lc]|]; [|discriminate].
      destruct (lc =? _); [|discriminate]. injection Hw as <-. reflexivity. }
    rewrite <- Hin in Hw.
    rewrite Ho, Hin, !Z.eqb_refl, !andb_true_r.
    rewrite !andb_true_iff. repeat split.
    + apply in_field_iff; assumption.
    + apply in_field_iff; assumption.
    + rewrite <- Ho. apply in_field_mod.
    + apply Num2Bits_constraints_by_witness; [assumption|].
      split; [|assumption]. rewrite Hin. apply LessThan_shifted_in_field.
Qed.

Lemma GreaterThan_constraints_by_witness s :
  GreaterThan_constraints p n s = true <->
  (0 <= gt_in0 s < p /\ 0 <= gt_in1 s < p)
  /\ GreaterThan_witness p n (gt_in0 s, gt_in1 s) = Some s.
Proof.
  destruct s as [a b o l]. cbn [gt_in0 gt_in1].
  unfold GreaterThan_constraints, GreaterThan_witness.
  cbn [gt_in0 gt_in1 gt_out gt_lt fst snd].
  split.
  - intros H. bool_to_prop.
    repeat match goal with H : Circom.in_field _ _ = true |- _ =>
      apply in_field_iff in H end.
    match goal with H : LessThan_constraints _ _ _ = true |- _ =>
      apply LessThan_constraints_by_witness in H; destruct H as [_ Hw] end.
    repeat match goal with H : _ l = _ |- _ => rewrite H in Hw end.
    rewrite Hw. split; [split; assumption|]. subst o. reflexivity.
  - intros [[Ha Hb] H].
    destruct (LessThan_witness p n (b, a)) as [l'|] eqn:Hw; [|discriminate].
    injection H as Ho Hl. subst l'.
    assert (Hin : lt_in0 l = b /\ lt_in1 l = a).
    { unfold LessThan_witness in Hw. destruct (Num2Bits_witness _ _ _);
        [|discriminate]. injection Hw as <-. split; reflexivity. }
    destruct Hin as [Hi0 Hi1].
    rewrite Ho, Hi0, Hi1, !Z.eqb_refl, !andb_true_r.
    rewrite !andb_true_iff. repeat split; try (apply in_field_iff; assumption).
    + rewrite <- Ho. unfold LessThan_witness in Hw.
      destruct (Num2Bits_witness _ _ _); [|discriminate]. injection Hw as <-.
      apply in_field_mod.
    + apply LessThan_constraints_by_witness. rewrite Hi0, Hi1. auto.
Qed.

Lemma GreaterEqThan_constraints_by_witness s :
  GreaterEqThan_constraints p n s = true <->
  (0 <= ge_in0 s < p /\ 0 <= ge_in1 s < p)
  /\ GreaterEqThan_witness p n (ge_in0 s, ge_in1 s) = Some s.
Proof.
  destruct s as [a b o l]. cbn [ge_in0 ge_in1].
  unfold GreaterEqThan_constraints, GreaterEqThan_witness.
  cbn [ge_in0 ge_in1 ge_out ge_lt fst snd].
  split.
  - intros H. bool_to_prop.
    repeat match goal with H : Circom.in_field _ _ = true |- _ =>
      apply in_field_iff in H end.
    match goal with H : LessThan_constraints _ _ _ = true |- _ =>
      apply LessThan_constraints_by_witness in H; destruct H as [_ Hw] end.
    repeat match goal with H : _ l = _ |- _ => rewrite H in Hw end.
    rewrite Hw. split; [split; assumption|]. subst o. reflexivity.
  - intros [[Ha Hb] H].
    destruct (LessThan_witness p n (a, b)) as [l'|] eqn:Hw; [|discriminate].
    injection H as Ho Hl. subst l'.
    assert (Hin : lt_in0 l = a /\ lt_in1 l = b).
    { unfold LessThan_witness in Hw. destruct (Num2Bits_witness _ _ _);
        [|discriminate]. injection Hw as <-. split; reflexivity. }
    destruct Hin as [Hi0 Hi1].
    rewrite Ho, Hi0, Hi1, !Z.eqb_refl, !andb_true_r.
    rewrite !andb_true_iff. repeat split; try (apply in_field_iff; assumption).
    + rewrite <- Ho. apply in_field_mod.
    + apply LessThan_constraints_by_witness. rewrite Hi0, Hi1. auto.
Qed.

Lemma LessEqThan_constraints_by_witness s :
  LessEqThan_constraints p n s = true <->
  (0 <= le_in0 s < p /\ 0 <= le_in1 s < p)
  /\ LessEqThan_witness p n (le_in0 s, le_in1 s) = Some s.
Proof.
  destruct s as [a b o g]. cbn [le_in0 le_in1].
  unfold LessEqThan_constraints, LessEqThan_witness.
  cbn [le_in0 le_in1 le_out le_gt fst snd].
  split.
  - intros H. bool_to_prop.
    repeat match goal with H : Circom.in_field _ _ = true |- _ =>
      apply in_field_iff in H end.
    match goal with H : GreaterThan_constraints _ _ _ = true |- _ =>
      apply GreaterThan_constraints_by_witness in H; destruct H as [_ Hw] end.
    repeat match goal with H : _ g = _ |- _ => rewrite H in Hw end.
    rewrite Hw. split; [split; assumption|]. subst o. reflexivity.
  - intros [[Ha Hb] H].
    destruct (GreaterThan_witness p n (a, b)) as [g'|] eqn:Hw; [|discriminate].
    injection H as Ho Hg. subst g'.
    assert (Hin : gt_in0 g = a /\ gt_in1 g = b).
    { unfold GreaterThan_witness in Hw. destruct (LessThan_witness _ _ _);
        [|discriminate]. injection Hw as <-. split; reflexivity. }
    destruct Hin as [Hi0 Hi1].
    rewrite Ho, Hi0, Hi1, !Z.eqb_refl, !andb_true_r.
    rewrite !andb_true_iff. repeat split; try (apply in_field_iff; assumption).
    + rewrite <- Ho. apply in_field_mod.
    + apply GreaterThan_constraints_by_witness. rewrite Hi0, Hi1. auto.
Qed.

(** RangeProof(n): the witness program computes the satisfying
    assignments, all of them and nothing else *)
Lemma RangeProof_constraints_by_witness s :
  RangeProof_constraints p n s = true <->
  (0 <= value s < p /\ 0 <= minValue s < p /\ 0 <= maxValue s < p)
  /\ RangeProof_witness p n (value s, minValue s, maxValue s) = Some s.
Proof.
  destruct s as [v mn mx vld am bm ge le]. cbn [value minValue maxValue].
  unfold RangeProof_constraints, RangeProof_witness.
  cbn [value minValue maxValue valid aboveMin belowMax gtMin ltMax].
  split.
  - intros H. bool_to_prop.
    repeat match goal with H : Circom.in_field _ _ = true |- _ =>
      apply in_field_iff in H end.
    match goal with H : GreaterEqThan_constraints _ _ _ = true |- _ =>
      apply GreaterEqThan_constraints_by_witness in H; destruct H as [_ Hge] end.
    match goal with H : LessEqThan_constraints _ _ _ = true |- _ =>
      apply LessEqThan_constraints_by_witness in H; destruct H as [_ Hle] end.
    repeat match goal with H : _ ge = _ |- _ => rewrite H in Hge end.
    repeat match goal with H : _ le = _ |- _ => rewrite H in Hle end.
    rewrite Hge, Hle. split; [repeat split; lia|].
    subst am bm.
    match goal with H1 : vld = Circom.mul _ _ _, H2 : vld = 1 |- _ =>
      rewrite <- H1, H2 end.
    reflexivity.
  - intros [[Hv [Hmn Hmx]] H].
    destruct (GreaterEqThan_witness p n (v, mn)) as [ge'|] eqn:Hge;
      [|discriminate].
    destruct (LessEqThan_witness p n (v, mx)) as [le'|] eqn:Hle;
      [|discriminate].
    destruct (Z.eqb_spec (Circom.mul p (ge_out ge') (le_out le')) 1) as [E|];
      [|discriminate].
    injection H as Hvld Ham Hbm Hg Hl. subst ge' le'.
    assert (Hgi : ge_in0 ge = v /\ ge_in1 ge = mn).
    { unfold GreaterEqThan_witness in Hge. destruct (LessThan_witness _ _ _);
        [|discriminate]. injection Hge as <-. split; reflexivity. }
    assert (Hli : le_in0 le = v /\ le_in1 le = mx).
    { unfold LessEqThan_witness in Hle. destruct (GreaterThan_witness _ _ _);
        [|discriminate]. injection Hle as <-. split; reflexivity. }
    destruct Hgi as [Hg0 Hg1]. destruct Hli as [Hl0 Hl1].
    assert (Hgo : 0 <= ge_out ge < p).
    { unfold GreaterEqThan_witness in Hge. destruct (LessThan_witness _ _ _);
        [|discriminate]. injection Hge as <-. cbn [ge_out].
        apply Z.mod_pos_bound. lia. }
    assert (Hlo : 0 <= le_out le < p).
    { unfold LessEqThan_witness in Hle. destruct (GreaterThan_witness _ _ _);
        [|discriminate]. injection Hle as <-. cbn [le_out].
        apply Z.mod_pos_bound. lia. }
    subst am bm. rewrite <- Hvld, E.
    rewrite Hg0, Hg1, Hl0, Hl1, !Z.eqb_refl, !andb_true_r.
    rewrite !andb_true_iff. repeat split; try (apply in_field_iff; lia).
    + apply GreaterEqThan_constraints_by_witness. rewrite Hg0, Hg1. auto.
    + apply LessEqThan_constraints_by_witness. rewrite Hl0, Hl1. auto.
Qed.

(** the value fed to Num2Bits, from the difference of the inputs *)
Lemma LessThan_shifted_diff a b :
  LessThan_shifted p n a b = ((a - b) mod p + 2 ^ Z.of_nat n) mod p.
Proof.
  pose proof (pow2_succ_double n) as Hd. pose proof (pow2_n_pos n) as Hpos.
  unfold LessThan_shifted, Circom.sub, Circom.add.
  rewrite shl_1_small by lia.
  rewrite Zminus_mod_idemp_l, Zplus_mod_idemp_l. f_equal. lia.
Qed.

Lemma testbit_top x :
  0 <= x < 2 ^ (Z.of_nat n + 1) ->
  Z.b2z (Z.testbit x (Z.of_nat n)) = if 2 ^ Z.of_nat n <=? x then 1 else 0.
Proof.
  intros Hx. pose proof (pow2_succ_double n) as Hd.
  pose proof (pow2_n_pos n) as Hpos.
  rewrite Z.testbit_spec' by lia.
  destruct (Z.leb_spec (2 ^ Z.of_nat n) x).
  - rewrite <- (Z.div_unique_pos x (2 ^ Z.of_nat n) 1 (x - 2 ^ Z.of_nat n))
      by lia. reflexivity.
  - rewrite Z.div_small by lia. reflexivity.
Qed.

(** LessThan(n) on any pair of inputs: what the witness program returns *)
Lemma LessThan_witness_any a b :
  LessThan_witness p n (a, b) =
  if LessThan_shifted p n a b <? 2 ^ (Z.of_nat n + 1)
  then Some {| lt_in0 := a; lt_in1 := b;
               lt_out := if 2 ^ Z.of_nat n <=? LessThan_shifted p n a b
                         then 0 else 1;
               lt_n2b := Num2Bits_assignment (n + 1) (LessThan_shifted p n a b) |}
  else None.
Proof.
  assert (Hfit : 2 ^ Z.of_nat (n + 1) <= p)
    by (rewrite Nat2Z.inj_add; exact n_fits).
  pose proof (LessThan_shifted_in_field a b) as Hx.
  unfold LessThan_witness. cbn [fst snd].
  rewrite Num2Bits_witness_spec by (try assumption; lia).
  rewrite Nat2Z.inj_add. change (Z.of_nat 1) with 1.
  destruct (Z.ltb_spec (LessThan_shifted p n a b) (2 ^ (Z.of_nat n + 1)));
    [|reflexivity].
  f_equal. f_equal. cbn [Num2Bits_assignment n2b_out].
  rewrite nth_bits_of by lia. rewrite testbit_top by lia.
  destruct (2 ^ Z.of_nat n <=? _).
  - unfold Circom.sub. simpl. apply Z.mod_0_l. lia.
  - unfold Circom.sub. simpl. apply Z.mod_small. lia.
Qed.

(** the output of LessThan(n), from the difference of the inputs modulo
    [p]: 0 when it is below [2^n], 1 when it is one of the [2^n] values
    below [p], and no assignment in between *)
Lemma LessThan_output_any a b :
  option_map lt_out (LessThan_witness p n (a, b)) =
  if (a - b) mod p <? 2 ^ Z.of_nat n then Some 0
  else if p - 2 ^ Z.of_nat n <=? (a - b) mod p then Some 1
  else None.
Proof.
  pose proof (pow2_succ_double n) as Hd. pose proof (pow2_n_pos n) as Hpos.
  rewrite LessThan_witness_any, LessThan_shifted_diff.
  pose proof (Z.mod_pos_bound (a - b) p ltac:(lia)) as Hdiff.
  set (d := (a - b) mod p) in *.
  destruct (Z.ltb_spec d (2 ^ Z.of_nat n)).
  - rewrite (Z.mod_small (d + _)) by lia.
    destruct (Z.ltb_spec (d + 2 ^ Z.of_nat n) (2 ^ (Z.of_nat n + 1))); [|lia].
    cbn [option_map lt_out].
    destruct (Z.leb_spec (2 ^ Z.of_nat n) (d + 2 ^ Z.of_nat n)); [|lia].
    reflexivity.
  - destruct (Z.leb_spec (p - 2 ^ Z.of_nat n) d).
    + assert (E : (d + 2 ^ Z.of_nat n) mod p = d + 2 ^ Z.of_nat n - p).
      { symmetry. apply (Z.mod_unique_pos _ _ 1); lia. }
      rewrite E.
      destruct (Z.ltb_spec (d + 2 ^ Z.of_nat n - p) (2 ^ (Z.of_nat n + 1)));
        [|lia].
      cbn [option_map lt_out].
      destruct (Z.leb_spec (2 ^ Z.of_nat n) (d + 2 ^ Z.of_nat n - p)); [lia|].
      reflexivity.
    + rewrite (Z.mod_small (d + _)) by lia.
      destruct (Z.ltb_spec (d + 2 ^ Z.of_nat n) (2 ^ (Z.of_nat n + 1))); [lia|].
      reflexivity.
Qed.

Lemma GreaterEqThan_output_any a b :
  option_map ge_out (GreaterEqThan_witness p n (a, b)) =
  if (a - b) mod p <? 2 ^ Z.of_nat n then Some 1
  else if p - 2 ^ Z.of_nat n <=? (a - b) mod p then Some 0
  else None.
Proof.
  pose proof (LessThan_output_any a b) as H.
  unfold GreaterEqThan_witness. cbn [fst snd].
  destruct (LessThan_witness p n (a, b)) as [l|]; cbn [option_map ge_out] in *.
  - destruct (_ <? _).
    + injection H as ->. f_equal. apply Z.mod_small. lia.
    + destruct (_ <=? _); [|discriminate].
      injection H as ->. reflexivity.
  - destruct (_ <? _); [discriminate|].
    destruct (_ <=? _); [discriminate|reflexivity].
Qed.

Lemma LessEqThan_output_any a b :
  option_map le_out (LessEqThan_witness p n (a, b)) =
  if (b - a) mod p <? 2 ^ Z.of_nat n then Some 1
  else if p - 2 ^ Z.of_nat n <=? (b - a) mod p then Some 0
  else None.
Proof.
  pose proof (LessThan_output_any b a) as H.
  unfold LessEqThan_witness, GreaterThan_witness. cbn [fst snd].
  destruct (LessThan_witness p n (b, a)) as [l|];
    cbn [option_map le_out gt_out] in *.
  - destruct (_ <? _).
    + injection H as ->. f_equal. apply Z.mod_small. lia.
    + destruct (_ <=? _); [|discriminate].
      injection H as ->. reflexivity.
  - destruct (_ <? _); [discriminate|].
    destruct (_ <=? _); [discriminate|reflexivity].
Qed.

(** RangeProof(n) on any triple of inputs: the witness program succeeds
    when both differences, [value - minValue] and [maxValue - value],
    are below [2^n] modulo [p], and only then *)
Lemma RangeProof_witness_any v mn mx :
  (exists s, RangeProof_witness p n (v, mn, mx) = Some s) <->
  (v - mn) mod p < 2 ^ Z.of_nat n /\ (mx - v) mod p < 2 ^ Z.of_nat n.
Proof.
  pose proof (GreaterEqThan_output_any v mn) as Hge.
  pose proof (LessEqThan_output_any v mx) as Hle.
  unfold RangeProof_witness.
  destruct (GreaterEqThan_witness p n (v, mn)) as [ge|];
    cbn [option_map] in Hge.
  - destruct (LessEqThan_witness p n (v, mx)) as [le|];
      cbn [option_map] in Hle.
    + destruct (Z.ltb_spec ((v - mn) mod p) (2 ^ Z.of_nat n));
        destruct (Z.ltb_spec ((mx - v) mod p) (2 ^ Z.of_nat n));
        repeat match goal with
               | H : Some _ = (if ?c then _ else _) |- _ => destruct c
               | H : Some _ = Some _ |- _ => injection H as ->
               | H : Some _ = None |- _ => discriminate H
               end;
        unfold Circom.mul; simpl Z.mul;
        rewrite ?Z.mod_0_l, ?Z.mod_1_l by lia; simpl;
        split; try (intros [s Hs]; discriminate Hs); try lia;
        intros; eexists; reflexivity.
    + destruct (Z.ltb_spec ((mx - v) mod p) (2 ^ Z.of_nat n));
        [discriminate|].
      split; [intros [s Hs]; discriminate Hs|lia].
  - destruct (Z.ltb_spec ((v - mn) mod p) (2 ^ Z.of_nat n)); [discriminate|].
    split; [intros [s Hs]; discriminate Hs|lia].
Qed.

End AnyInput.

(** both facts at once, for the theorems on arbitrary inputs *)
Lemma RangeProof_on_field_elements_aux (p : Z) (n : nat) :
  Z.prime p -> 2 ^ (Z.of_nat n + 1) <= p ->
  (forall s, RangeProof_constraints p n s = true <->
     (0 <= value s < p /\ 0 <= minValue s < p /\ 0 <= maxValue s < p)
     /\ RangeProof_witness p n (value s, minValue s, maxValue s) = Some s)
  /\ (forall v mn mx, 0 <= v < p -> 0 <= mn < p -> 0 <= mx < p ->
        ((exists s, RangeProof_constraints p n s = true
                    /\ value s = v /\ minValue s = mn /\ maxValue s = mx)
         <-> (v - mn) mod p < 2 ^ Z.of_nat n
             /\ (mx - v) mod p < 2 ^ Z.of_nat n)).
Proof.
  intros Hprime Hfit.
  pose proof (RangeProof_constraints_by_witness p Hprime n Hfit) as HW.
  split; [exact HW|].
  intros v mn mx Hv Hmn Hmx.
  rewrite <- (RangeProof_witness_any p Hprime n Hfit v mn mx).
  split.
  - intros [s [Hs [<- [<- <-]]]]. exists s. apply HW. exact Hs.
  - intros [s Hs]. exists s.
    assert (Hi : value s = v /\ minValue s = mn /\ maxValue s = mx).
    { unfold RangeProof_witness in Hs.
      destruct (GreaterEqThan_witness _ _ _); [|discriminate].
      destruct (LessEqThan_witness _ _ _); [|discriminate].
      destruct (_ =? _); [|discriminate].
      injection Hs as <-. repeat split; reflexivity. }
    destruct Hi as [E1 [E2 E3]]. split; [|auto].
    apply HW. rewrite E1, E2, E3. auto.
Qed.

(** ** Beyond the claims: the circuit on arbitrary field elements *)

(** X1. LessThan(n) does not check the range of its inputs. On any two
    field elements its output is decided by their difference modulo [p]:
    0 when [(a - b) mod p < 2^n], 1 when [(a - b) mod p >= p - 2^n], and
    between the two there is no satisfying assignment. The witness
    program returns the one satisfying assignment, if any. *)
Theorem LessThan_on_field_elements (p : Z) (n : nat) (a b : Z) :
  Z.prime p -> 2 ^ 253 < p -> (n <= 252)%nat ->
  0 <= a < p -> 0 <= b < p ->
  exists c, LessThan p n = Some c
  /\ option_map lt_out (witness c (a, b)) =
     (if (a - b) mod p <? 2 ^ Z.of_nat n then Some 0
      else if p - 2 ^ Z.of_nat n <=? (a - b) mod p then Some 1
      else None)
  /\ (forall s, constraints c s = true -> lt_in0 s = a -> lt_in1 s = b ->
        witness c (a, b) = Some s)
  /\ ((exists s, constraints c s = true /\ lt_in0 s = a /\ lt_in1 s = b)
      <-> (a - b) mod p < 2 ^ Z.of_nat n
          \/ p - 2 ^ Z.of_nat n <= (a - b) mod p).
Proof.
  intros Hprime Hbig Hn Ha Hb.
  pose proof (fits_of_assert p n Hn Hbig) as Hfit.
  eexists. split; [apply LessThan_built; assumption|].
  cbn [constraints witness].
  pose proof (LessThan_output_any p Hprime n Hfit a b) as Hout.
  split; [exact Hout|]. split.
  - intros s Hs <- <-.
    apply (LessThan_constraints_by_witness p Hprime n Hfit) in Hs. tauto.
  - split.
    + intros [s [Hs [<- <-]]].
      apply (LessThan_constraints_by_witness p Hprime n Hfit) in Hs.
      destruct Hs as [_ Hs]. rewrite Hs in Hout. cbn [option_map] in Hout.
      destruct (Z.ltb_spec ((lt_in0 s - lt_in1 s) mod p) (2 ^ Z.of_nat n));
        [left; assumption|].
      destruct (Z.leb_spec (p - 2 ^ Z.of_nat n) ((lt_in0 s - lt_in1 s) mod p));
        [right; assumption|discriminate].
    + intros Hd.
      destruct (LessThan_witness p n (a, b)) as [s|] eqn:Hw.
      * assert (Hs : LessThan_constraints p n s = true
                     /\ lt_in0 s = a /\ lt_in1 s = b).
        { assert (Hi : lt_in0 s = a /\ lt_in1 s = b).
          { unfold LessThan_witness in Hw.
            destruct (Num2Bits_witness _ _ _); [|discriminate].
            injection Hw as <-. split; reflexivity. }
          destruct Hi as [Hi0 Hi1]. split; [|split; assumption].
          apply (LessThan_constraints_by_witness p Hprime n Hfit).
          rewrite Hi0, Hi1. auto. }
        exists s. exact Hs.
      * cbn [option_map] in Hout.
        destruct (Z.ltb_spec ((a - b) mod p) (2 ^ Z.of_nat n));
          [discriminate|].
        destruct (Z.leb_spec (p - 2 ^ Z.of_nat n) ((a - b) mod p));
          [discriminate|lia].
Qed.

Lemma LessThan_on_field_elements_witness :
  (Z.prime bn128) /\
  (2 ^ 253 < bn128) /\
  ((32%nat <= 252)%nat) /\
  (0 <= 21888242871839275222246405745257275088548364400416034343698204186575808495616 < bn128) /\
  (0 <= 0 < bn128) /\
  (exists c, LessThan bn128 32%nat = Some c
  /\ option_map lt_out (witness c (21888242871839275222246405745257275088548364400416034343698204186575808495616, 0)) =
     (if (21888242871839275222246405745257275088548364400416034343698204186575808495616 - 0) mod bn128 <? 2 ^ Z.of_nat 32%nat then Some 0
      else if bn128 - 2 ^ Z.of_nat 32%nat <=? (21888242871839275222246405745257275088548364400416034343698204186575808495616 - 0) mod bn128 then Some 1
      else None)
  /\ (forall s, constraints c s = true -> lt_in0 s = 21888242871839275222246405745257275088548364400416034343698204186575808495616 -> lt_in1 s = 0 ->
        witness c (21888242871839275222246405745257275088548364400416034343698204186575808495616, 0) = Some s)
  /\ ((exists s, constraints c s = true /\ lt_in0 s = 21888242871839275222246405745257275088548364400416034343698204186575808495616 /\ lt_in1 s = 0)
      <-> (21888242871839275222246405745257275088548364400416034343698204186575808495616 - 0) mod bn128 < 2 ^ Z.of_nat 32%nat
          \/ bn128 - 2 ^ Z.of_nat 32%nat <= (21888242871839275222246405745257275088548364400416034343698204186575808495616 - 0) mod bn128)).
Proof.
  assert (h1 : Z.prime bn128)
    by (exact bn128_prime).
  assert (h2 : 2 ^ 253 < bn128)
    by (exact bn128_254_bits).
  assert (h3 : (32%nat <= 252)%nat)
    by (apply Nat.leb_le; reflexivity).
  assert (h4 : 0 <= 21888242871839275222246405745257275088548364400416034343698204186575808495616 < bn128)
    by (split; [vm_compute; discriminate|vm_compute; reflexivity]).
  assert (h5 : 0 <= 0 < bn128)
    by (split; [vm_compute; discriminate|vm_compute; reflexivity]).
  exact
    (conj h1 (conj h2 (conj h3 (conj h4 (conj h5 (LessThan_on_field_elements bn128 32%nat 21888242871839275222246405745257275088548364400416034343698204186575808495616 0 h1 h2 h3 h4 h5)))))).
Defined.


(** X2. RangeProof(n) on any three field elements: the witness program
    returns exactly the satisfying assignments, so that an input has at
    most one; and there is one if and only if both [(value - minValue)
    mod p] and [(maxValue - value) mod p] are below [2^n]. *)
Theorem RangeProof_on_field_elements (p : Z) (n : nat)
  (c : component (Z * Z * Z) RangeProof_signals) :
  Z.prime p -> 2 ^ 253 < p -> RangeProof p n = Some c ->
  (forall s, constraints c s = true <->
     (0 <= value s < p /\ 0 <= minValue s < p /\ 0 <= maxValue s < p)
     /\ witness c (value s, minValue s, maxValue s) = Some s)
  /\ (forall s1 s2, constraints c s1 = true -> constraints c s2 = true ->
        value s1 = value s2 -> minValue s1 = minValue s2 ->
        maxValue s1 = maxValue s2 -> s1 = s2)
  /\ (forall v mn mx, 0 <= v < p -> 0 <= mn < p -> 0 <= mx < p ->
        ((exists s, constraints c s = true
                    /\ value s = v /\ minValue s = mn /\ maxValue s = mx)
         <-> (v - mn) mod p < 2 ^ Z.of_nat n
             /\ (mx - v) mod p < 2 ^ Z.of_nat n)).
Proof.
  intros Hprime Hbig Hc.
  assert (Hn : (n <= 252)%nat).
  { destruct (Nat.le_gt_cases n 252) as [|Hgt]; [assumption|].
    rewrite RangeProof_refused in Hc by assumption. discriminate. }
  rewrite RangeProof_built in Hc by assumption.
  injection Hc as <-. cbn [constraints witness].
  pose proof (fits_of_assert p n Hn Hbig) as Hfit.
  pose proof (RangeProof_constraints_by_witness p Hprime n Hfit) as HW.
  split; [exact HW|]. split.
  - intros s1 s2 H1 H2 Ev Emn Emx.
    apply HW in H1. apply HW in H2.
    destruct H1 as [_ H1]. destruct H2 as [_ H2].
    rewrite Ev, Emn, Emx, H2 in H1. injection H1 as <-. reflexivity.
  - apply (RangeProof_on_field_elements_aux p n Hprime Hfit).
Qed.

Lemma RangeProof_on_field_elements_witness :
  (Z.prime bn128) /\
  (2 ^ 253 < bn128) /\
  (RangeProof bn128 32%nat = Some main_component) /\
  ((forall s, constraints main_component s = true <->
     (0 <= value s < bn128 /\ 0 <= minValue s < bn128 /\ 0 <= maxValue s < bn128)
     /\ witness main_component (value s, minValue s, maxValue s) = Some s)
  /\ (forall s1 s2, constraints main_component s1 = true -> constraints main_component s2 = true ->
        value s1 = value s2 -> minValue s1 = minValue s2 ->
        maxValue s1 = maxValue s2 -> s1 = s2)
  /\ (forall v mn mx, 0 <= v < bn128 -> 0 <= mn < bn128 -> 0 <= mx < bn128 ->
        ((exists s, constraints main_component s = true
                    /\ value s = v /\ minValue s = mn /\ maxValue s = mx)
         <-> (v - mn) mod bn128 < 2 ^ Z.of_nat 32%nat
             /\ (mx - v) mod bn128 < 2 ^ Z.of_nat 32%nat))).
Proof.
  assert (h1 : Z.prime bn128)
    by (exact bn128_prime).
  assert (h2 : 2 ^ 253 < bn128)
    by (exact bn128_254_bits).
  assert (h3 : RangeProof bn128 32%nat = Some main_component)
    by (reflexivity).
  exact
    (conj h1 (conj h2 (conj h3 (RangeProof_on_field_elements bn128 32%nat main_component h1 h2 h3)))).
Defined.


(** X3. With public bounds of [n] bits (and [3 * 2^n <= p], as for every
    [n <= 251], and for 252 on BN128), the value needs no assumption: a
    field element [value] has a satisfying assignment if and only if
    [minValue <= value <= maxValue] over the integers. In particular none
    has when [minValue > maxValue]. *)
Theorem RangeProof_sound_for_any_value (p : Z) (n : nat) (v mn mx : Z) :
  Z.prime p -> 2 ^ 253 < p -> (n <= 252)%nat -> 3 * 2 ^ Z.of_nat n <= p ->
  0 <= v < p -> 0 <= mn < 2 ^ Z.of_nat n -> 0 <= mx < 2 ^ Z.of_nat n ->
  exists c, RangeProof p n = Some c
  /\ ((exists s, constraints c s = true
                 /\ value s = v /\ minValue s = mn /\ maxValue s = mx)
      <-> mn <= v <= mx)
  /\ (mx < mn ->
      forall s, minValue s = mn -> maxValue s = mx -> constraints c s = false).
Proof.
  intros Hprime Hbig Hn H3 Hv Hmn Hmx.
  pose proof (fits_of_assert p n Hn Hbig) as Hfit.
  pose proof (pow2_succ_double n) as Hd. pose proof (pow2_n_pos n) as Hpos.
  assert (Hc : RangeProof p n = Some {| constraints := RangeProof_constraints p n;
                                        witness := RangeProof_witness p n |})
    by (apply RangeProof_built; assumption).
  destruct (RangeProof_on_field_elements_aux p n Hprime Hfit) as [HW Hiff].
  (* the two differences, over the integers *)
  assert (Hdiff : forall w, 0 <= w < p ->
            ((w - mn) mod p < 2 ^ Z.of_nat n /\ (mx - w) mod p < 2 ^ Z.of_nat n
             <-> mn <= w <= mx)).
  { intros w Hw. split.
    - intros [H1 H2].
      destruct (Z_lt_le_dec w mn) as [Hlt|Hge].
      + rewrite <- (Z.mod_unique_pos (w - mn) p (-1) (w - mn + p)) in H1
          by lia. lia.
      + rewrite (Z.mod_small (w - mn)) in H1 by lia.
        destruct (Z_lt_le_dec mx w) as [Hlt|Hle]; [|lia].
        rewrite <- (Z.mod_unique_pos (mx - w) p (-1) (mx - w + p)) in H2
          by lia. lia.
    - intros Hr. rewrite !Z.mod_small by lia. lia. }
  eexists. split; [exact Hc|]. cbn [constraints witness]. split.
  - rewrite <- (Hdiff v Hv). apply Hiff; lia.
  - intros Hlt s E1 E2.
    destruct (RangeProof_constraints p n s) eqn:E; [|reflexivity].
    pose proof E as E'. apply HW in E'. destruct E' as [[Hvs _] _].
    assert (Hex : exists s', RangeProof_constraints p n s' = true
                   /\ value s' = value s /\ minValue s' = mn /\ maxValue s' = mx)
      by (exists s; auto).
    apply Hiff in Hex; try lia. apply Hdiff in Hex; lia.
Qed.

Lemma RangeProof_sound_for_any_value_witness :
  (Z.prime bn128) /\
  (2 ^ 253 < bn128) /\
  ((32%nat <= 252)%nat) /\
  (3 * 2 ^ Z.of_nat 32%nat <= bn128) /\
  (0 <= 150 < bn128) /\
  (0 <= 100 < 2 ^ Z.of_nat 32%nat) /\
  (0 <= 200 < 2 ^ Z.of_nat 32%nat) /\
  (exists c, RangeProof bn128 32%nat = Some c
  /\ ((exists s, constraints c s = true
                 /\ value s = 150 /\ minValue s = 100 /\ maxValue s = 200)
      <-> 100 <= 150 <= 200)
  /\ (200 < 100 ->
      forall s, minValue s = 100 -> maxValue s = 200 -> constraints c s = false)).
Proof.
  assert (h1 : Z.prime bn128)
    by (exact bn128_prime).
  assert (h2 : 2 ^ 253 < bn128)
    by (exact bn128_254_bits).
  assert (h3 : (32%nat <= 252)%nat)
    by (apply Nat.leb_le; reflexivity).
  assert (h4 : 3 * 2 ^ Z.of_nat 32%nat <= bn128)
    by (vm_compute; discriminate).
  assert (h5 : 0 <= 150 < bn128)
    by (split; [vm_compute; discriminate|vm_compute; reflexivity]).
  assert (h6 : 0 <= 100 < 2 ^ Z.of_nat 32%nat)
    by (split; [vm_compute; discriminate|vm_compute; reflexivity]).
  assert (h7 : 0 <= 200 < 2 ^ Z.of_nat 32%nat)
    by (split; [vm_compute; discriminate|vm_compute; reflexivity]).
  exact
    (conj h1 (conj h2 (conj h3 (conj h4 (conj h5 (conj h6 (conj h7 (RangeProof_sound_for_any_value bn128 32%nat 150 100 200 h1 h2 h3 h4 h5 h6 h7)))))))).
Defined.


(** X4. [minValue] is not checked to have [n] bits: a field element [k]
    below the modulus, [p - k] with [value + k < 2^n], is a bound that the
    circuit accepts although it is above the value. *)
Theorem RangeProof_accepts_wrapped_minValue (p : Z) (n : nat) (v mx k : Z) :
  Z.prime p -> 2 ^ 253 < p -> (n <= 252)%nat ->
  0 <= v -> v <= mx -> mx < 2 ^ Z.of_nat n ->
  1 <= k -> v + k < 2 ^ Z.of_nat n ->
  exists c, RangeProof p n = Some c
  /\ v < p - k
  /\ exists s, constraints c s = true /\ witness c (v, p - k, mx) = Some s
               /\ value s = v /\ minValue s = p - k /\ maxValue s = mx
               /\ valid s = 1.
Proof.
  intros Hprime Hbig Hn Hv Hle Hmx Hk Hvk.
  pose proof (fits_of_assert p n Hn Hbig) as Hfit.
  pose proof (pow2_succ_double n) as Hd. pose proof (pow2_n_pos n) as Hpos.
  destruct (RangeProof_on_field_elements_aux p n Hprime Hfit) as [HW Hiff].
  eexists. split; [apply RangeProof_built; assumption|].
  cbn [constraints witness]. split; [lia|].
  assert (Hex : exists s, RangeProof_constraints p n s = true
                 /\ value s = v /\ minValue s = p - k /\ maxValue s = mx).
  { apply Hiff; try lia. split.
    - rewrite <- (Z.mod_unique_pos (v - (p - k)) p (-1) (v + k)) by lia. lia.
    - rewrite Z.mod_small by lia. lia. }
  destruct Hex as [s [Hs [E1 [E2 E3]]]]. exists s.
  pose proof Hs as Hw. apply HW in Hw. destruct Hw as [_ Hw].
  rewrite E1, E2, E3 in Hw.
  repeat split; try assumption.
  unfold RangeProof_constraints in Hs. apply andb_prop in Hs.
  destruct Hs as [_ Hs]. apply Z.eqb_eq. exact Hs.
Qed.

Lemma RangeProof_accepts_wrapped_minValue_witness :
  (Z.prime bn128) /\
  (2 ^ 253 < bn128) /\
  ((32%nat <= 252)%nat) /\
  (0 <= 3) /\
  (3 <= 10) /\
  (10 < 2 ^ Z.of_nat 32%nat) /\
  (1 <= 5) /\
  (3 + 5 < 2 ^ Z.of_nat 32%nat) /\
  (exists c, RangeProof bn128 32%nat = Some c
  /\ 3 < bn128 - 5
  /\ exists s, constraints c s = true /\ witness c (3, bn128 - 5, 10) = Some s
               /\ value s = 3 /\ minValue s = bn128 - 5 /\ maxValue s = 10
               /\ valid s = 1).
Proof.
  assert (h1 : Z.prime bn128)
    by (exact bn128_prime).
  assert (h2 : 2 ^ 253 < bn128)
    by (exact bn128_254_bits).
  assert (h3 : (32%nat <= 252)%nat)
    by (apply Nat.leb_le; reflexivity).
  assert (h4 : 0 <= 3)
    by (vm_compute; discriminate).
  assert (h5 : 3 <= 10)
    by (vm_compute; discriminate).
  assert (h6 : 10 < 2 ^ Z.of_nat 32%nat)
    by (vm_compute; reflexivity).
  assert (h7 : 1 <= 5)
    by (vm_compute; discriminate).
  assert (h8 : 3 + 5 < 2 ^ Z.of_nat 32%nat)
    by (vm_compute; reflexivity).
  exact
    (conj h1 (conj h2 (conj h3 (conj h4 (conj h5 (conj h6 (conj h7 (conj h8 (RangeProof_accepts_wrapped_minValue bn128 32%nat 3 10 5 h1 h2 h3 h4 h5 h6 h7 h8))))))))).
Defined.


(** X5. In every satisfying assignment of a comparator, whatever the
    inputs, the output is 0 or 1; and in every satisfying assignment of
    RangeProof the two intermediate signals [aboveMin] and [belowMax] are
    both 1, the inner LessThan of [gtMin] and the inner GreaterThan of
    [ltMax] both give 0. *)
Theorem comparator_outputs_are_bits (p : Z) (n : nat) :
  Z.prime p -> 2 ^ 253 < p -> (n <= 252)%nat ->
  exists clt cgt cge cle crp,
    LessThan p n = Some clt /\ GreaterThan p n = Some cgt
    /\ GreaterEqThan p n = Some cge /\ LessEqThan p n = Some cle
    /\ RangeProof p n = Some crp
    /\ (forall s, constraints clt s = true -> is_bit (lt_out s))
    /\ (forall s, constraints cgt s = true -> is_bit (gt_out s))
    /\ (forall s, constraints cge s = true -> is_bit (ge_out s))
    /\ (forall s, constraints cle s = true -> is_bit (le_out s))
    /\ (forall s, constraints crp s = true ->
          aboveMin s = 1 /\ belowMax s = 1
          /\ lt_out (ge_lt (gtMin s)) = 0
          /\ gt_out (le_gt (ltMax s)) = 0).
Proof.
  intros Hprime Hbig Hn.
  pose proof (fits_of_assert p n Hn Hbig) as Hfit.
  pose proof (Z.prime_ge_2 _ Hprime) as Hp2.
  do 5 eexists.
  split; [apply LessThan_built; assumption|].
  split; [apply GreaterThan_built; assumption|].
  split; [apply GreaterEqThan_built; assumption|].
  split; [apply LessEqThan_built; assumption|].
  split; [apply RangeProof_built; assumption|].
  cbn [constraints].
  assert (Hlt : forall s, LessThan_constraints p n s = true -> is_bit (lt_out s)).
  { intros s Hs.
    apply (LessThan_constraints_by_witness p Hprime n Hfit) in Hs.
    destruct Hs as [_ Hs].
    pose proof (LessThan_output_any p Hprime n Hfit (lt_in0 s) (lt_in1 s)) as Ho.
    rewrite Hs in Ho. cbn [option_map] in Ho. unfold is_bit.
    destruct (_ <? _); [injection Ho; auto|].
    destruct (_ <=? _); [injection Ho; auto|discriminate]. }
  assert (Hgt : forall s, GreaterThan_constraints p n s = true ->
                          is_bit (gt_out s)).
  { intros s Hs. unfold GreaterThan_constraints in Hs. bool_to_prop.
    match goal with H : gt_out s = _ |- _ => rewrite H end. auto. }
  assert (Hsub : forall b, is_bit b -> is_bit (Circom.sub p 1 b)
                           /\ (Circom.sub p 1 b = 1 -> b = 0)).
  { intros b [-> | ->]; unfold Circom.sub; simpl.
    - rewrite Z.mod_small by lia. split; [right; reflexivity|auto].
    - rewrite Z.mod_0_l by lia. split; [left; reflexivity|discriminate]. }
  assert (Hge : forall s, GreaterEqThan_constraints p n s = true ->
                  is_bit (ge_out s)
                  /\ (ge_out s = 1 -> lt_out (ge_lt s) = 0)).
  { intros s Hs. unfold GreaterEqThan_constraints in Hs. bool_to_prop.
    match goal with H : ge_out s = _ |- _ => rewrite H end.
    apply Hsub. auto. }
  assert (Hle : forall s, LessEqThan_constraints p n s = true ->
                  is_bit (le_out s)
                  /\ (le_out s = 1 -> gt_out (le_gt s) = 0)).
  { intros s Hs. unfold LessEqThan_constraints in Hs. bool_to_prop.
    match goal with H : le_out s = _ |- _ => rewrite H end.
    apply Hsub. auto. }
  split; [exact Hlt|]. split; [exact Hgt|].
  split; [intros s Hs; apply Hge; assumption|].
  split; [intros s Hs; apply Hle; assumption|].
  intros s Hs. unfold RangeProof_constraints in Hs. bool_to_prop.
  match goal with H : GreaterEqThan_constraints _ _ _ = true |- _ =>
    apply Hge in H; destruct H as [Hb1 Hz1] end.
  match goal with H : LessEqThan_constraints _ _ _ = true |- _ =>
    apply Hle in H; destruct H as [Hb2 Hz2] end.
  match goal with H : aboveMin s = _ |- _ => rename H into Eam end.
  match goal with H : belowMax s = _ |- _ => rename H into Ebm end.
  match goal with H1 : valid s = Circom.mul _ _ _, H2 : valid s = 1 |- _ =>
    rewrite H2, Eam, Ebm in H1; rename H1 into Hmul end.
  rewrite Eam, Ebm.
  unfold Circom.mul in Hmul.
  destruct Hb1 as [E1|E1], Hb2 as [E2|E2]; rewrite E1, E2 in Hmul;
    simpl in Hmul; rewrite ?Z.mod_0_l in Hmul by lia; try discriminate.
  auto.
Qed.

Lemma comparator_outputs_are_bits_witness :
  (Z.prime bn128) /\
  (2 ^ 253 < bn128) /\
  ((32%nat <= 252)%nat) /\
  (exists clt cgt cge cle crp,
    LessThan bn128 32%nat = Some clt /\ GreaterThan bn128 32%nat = Some cgt
    /\ GreaterEqThan bn128 32%nat = Some cge /\ LessEqThan bn128 32%nat = Some cle
    /\ RangeProof bn128 32%nat = Some crp
    /\ (forall s, constraints clt s = true -> is_bit (lt_out s))
    /\ (forall s, constraints cgt s = true -> is_bit (gt_out s))
    /\ (forall s, constraints cge s = true -> is_bit (ge_out s))
    /\ (forall s, constraints cle s = true -> is_bit (le_out s))
    /\ (forall s, constraints crp s = true ->
          aboveMin s = 1 /\ belowMax s = 1
          /\ lt_out (ge_lt (gtMin s)) = 0
          /\ gt_out (le_gt (ltMax s)) = 0)).
Proof.
  assert (h1 : Z.prime bn128)
    by (exact bn128_prime).
  assert (h2 : 2 ^ 253 < bn128)
    by (exact bn128_254_bits).
  assert (h3 : (32%nat <= 252)%nat)
    by (apply Nat.leb_le; reflexivity).
  exact
    (conj h1 (conj h2 (conj h3 (comparator_outputs_are_bits bn128 32%nat h1 h2 h3)))).
Defined.


(** X6. At the width of the modulus Num2Bits no longer determines the
    bits: when [n] is the bit length of [p] and [x + p < 2^n], the bits of
    [x + p] satisfy the constraints on the input [x] as the bits of [x]
    do, and they are other bits. *)
Theorem Num2Bits_aliases_at_modulus_width (p : Z) (n : nat) (x : Z) :
  1 < p -> Z.of_nat n = Circom.bits p -> Z.of_nat n <= p / 2 ->
  0 <= x -> x + p < 2 ^ Z.of_nat n ->
  exists c, Num2Bits p n = Some c
  /\ constraints c {| n2b_in := x; n2b_out := bits_of n x |} = true
  /\ constraints c {| n2b_in := x; n2b_out := bits_of n (x + p) |} = true
  /\ bits_of n (x + p) <> bits_of n x.
Proof.
  intros Hp Hbits Hhalf Hx Hxp.
  assert (Hlow : 2 ^ Z.of_nat n <= 2 * p).
  { rewrite Hbits. unfold Circom.bits.
    rewrite Z.pow_add_r by (try apply Z.log2_nonneg; lia).
    pose proof (Z.log2_spec p ltac:(lia)). lia. }
  eexists. split; [reflexivity|]. cbn [constraints].
  split; [apply (Num2Bits_assignment_satisfies p n x); lia|].
  split.
  - unfold Num2Bits_constraints, Num2Bits_signals_ok.
    rewrite Num2Bits_loop_spec. cbn [n2b_in n2b_out].
    assert (E : lin (shl_weight p) (bits_of n (x + p)) n mod p = x).
    { rewrite (lin_mod_ext p _ pow2 _ (bits_of n (x + p))).
      - rewrite lin_bits_of. rewrite (Z.mod_small (x + p) (2 ^ _)) by lia.
        rewrite <- (Z.mod_unique_pos (x + p) p 1 x) by lia. reflexivity.
      - intros i Hi. unfold shl_weight. rewrite shl_1_low by lia.
        rewrite Z.mul_mod_idemp_r by lia. reflexivity. }
    rewrite E, Z.eqb_refl, length_bits_of, Nat.eqb_refl.
    rewrite !andb_true_r. rewrite !andb_true_iff. repeat split.
    + apply in_field_iff. lia.
    + apply forallb_forall. intros b Hb. apply in_field_iff.
      unfold bits_of in Hb. apply in_map_iff in Hb.
      destruct Hb as [i [<- _]].
      destruct (Z.testbit (x + p) (Z.of_nat i)); simpl; lia.
    + apply forallb_seq_iff. intros i Hi. rewrite nth_bits_of by assumption.
      apply boolean_constraint_b2z. lia.
  - intros Heq. apply (f_equal (fun l => lin pow2 l n)) in Heq.
    rewrite !lin_bits_of in Heq.
    rewrite !Z.mod_small in Heq by lia. lia.
Qed.

Lemma Num2Bits_aliases_at_modulus_width_witness :
  (1 < bn128) /\
  (Z.of_nat 254%nat = Circom.bits bn128) /\
  (Z.of_nat 254%nat <= bn128 / 2) /\
  (0 <= 5) /\
  (5 + bn128 < 2 ^ Z.of_nat 254%nat) /\
  (exists c, Num2Bits bn128 254%nat = Some c
  /\ constraints c {| n2b_in := 5; n2b_out := bits_of 254%nat 5 |} = true
  /\ constraints c {| n2b_in := 5; n2b_out := bits_of 254%nat (5 + bn128) |} = true
  /\ bits_of 254%nat (5 + bn128) <> bits_of 254%nat 5).
Proof.
  assert (h1 : 1 < bn128)
    by (vm_compute; reflexivity).
  assert (h2 : Z.of_nat 254%nat = Circom.bits bn128)
    by (vm_compute; reflexivity).
  assert (h3 : Z.of_nat 254%nat <= bn128 / 2)
    by (vm_compute; discriminate).
  assert (h4 : 0 <= 5)
    by (vm_compute; discriminate).
  assert (h5 : 5 + bn128 < 2 ^ Z.of_nat 254%nat)
    by (vm_compute; reflexivity).
  exact
    (conj h1 (conj h2 (conj h3 (conj h4 (conj h5 (Num2Bits_aliases_at_modulus_width bn128 254%nat 5 h1 h2 h3 h4 h5)))))).
Defined.


(** ** Beyond the claims: the build script *)

Module ScriptFacts.
Import String Ascii DecimalString Script.
Local Open Scope string_scope.

(** ** Facts on the strings of the build script *)

Lemma string_length_append (s t : string) :
  String.length (s ++ t) = (String.length s + String.length t)%nat.
Proof. induction s as [|c s IH]; simpl; [reflexivity|]. rewrite IH. reflexivity. Qed.

Lemma string_append_nil_r (s : string) : s ++ "" = s.
Proof. induction s as [|c s IH]; simpl; [reflexivity|]. rewrite IH. reflexivity. Qed.

Lemma string_append_assoc (s t u : string) : (s ++ t) ++ u = s ++ (t ++ u).
Proof. induction s as [|c s IH]; simpl; [reflexivity|]. rewrite IH. reflexivity. Qed.

Lemma repeat_string_S (s : string) (k : nat) :
  repeat_string s (S k) = s ++ repeat_string s k.
Proof.
  unfold repeat_string. destruct k as [|k]; simpl.
  - rewrite string_append_nil_r. reflexivity.
  - reflexivity.
Qed.

Lemma length_repeat_string (s : string) (k : nat) :
  String.length (repeat_string s k) = (k * String.length s)%nat.
Proof.
  induction k as [|k IH]; [reflexivity|].
  rewrite repeat_string_S, string_length_append, IH. simpl. reflexivity.
Qed.

(** a string is the substring up to [k] and the substring from [k] *)
Lemma substring_split (s : string) (k : nat) :
  (k <= String.length s)%nat ->
  s = substring 0 k s ++ substring k (String.length s - k) s.
Proof.
  revert k. induction s as [|c s IH]; intros k Hk.
  - simpl in Hk. assert (k = 0)%nat by lia. subst. reflexivity.
  - destruct k as [|k].
    + simpl. f_equal. clear. induction s as [|d s IH]; simpl; [reflexivity|].
      f_equal. exact IH.
    + simpl in *. f_equal. apply IH. lia.
Qed.

Lemma substring_append_r (s t : string) :
  substring (String.length s) (String.length t) (s ++ t) = t.
Proof.
  induction s as [|c s IH]; simpl.
  - induction t as [|d t IHt]; simpl; [reflexivity|]. f_equal. exact IHt.
  - exact IH.
Qed.

(** [endsWith] is true of the strings that a prefix completes to [s] *)
Lemma endsWith_iff (s suffix : string) :
  endsWith s suffix = true <-> exists pre, s = pre ++ suffix.
Proof.
  unfold endsWith. rewrite andb_true_iff, Nat.leb_le, String.eqb_eq. split.
  - intros [Hle Hsub].
    exists (substring 0 (String.length s - String.length suffix) s).
    pose proof (substring_split s (String.length s - String.length suffix)
                  ltac:(lia)) as E.
    replace (String.length s - (String.length s - String.length suffix))%nat
      with (String.length suffix) in E by lia.
    rewrite Hsub in E. exact E.
  - intros [pre ->]. rewrite string_length_append. split; [lia|].
    replace (String.length pre + String.length suffix - String.length suffix)%nat
      with (String.length pre) by lia.
    apply substring_append_r.
Qed.

(** the length in UTF-16 code units adds up, and a blank is one unit *)
Lemma js_length_append (s t : string) :
  js_length (s ++ t) = (js_length s + js_length t)%nat.
Proof.
  induction s as [|c s IH]; simpl; [reflexivity|]. rewrite IH. lia.
Qed.

Lemma js_length_blanks (k : nat) : js_length (repeat_string " " k) = k.
Proof.
  induction k as [|k IH]; [reflexivity|].
  rewrite repeat_string_S, js_length_append, IH. reflexivity.
Qed.

(** [center]: blanks on both sides, as many on the left as on the right
    or one less, up to the width; a string that long already is left
    alone *)
Lemma center_spec (this : string) (width : Z) :
  exists left right : nat,
    center this width =
      repeat_string " " left ++ this ++ repeat_string " " right
    /\ (left <= right <= left + 1)%nat
    /\ Z.of_nat (left + js_length this + right)
       = Z.max width (Z.of_nat (js_length this)).
Proof.
  unfold center.
  set (k := Z.of_nat (js_length this)).
  set (padding := Z.max 0 (width - k)).
  exists (Z.to_nat (padding / 2)), (Z.to_nat (padding - padding / 2)).
  assert (0 <= padding) by (unfold padding; lia).
  assert (0 <= padding / 2) by (apply Z.div_pos; lia).
  assert (padding / 2 <= padding - padding / 2 <= padding / 2 + 1).
  { pose proof (Z.div_mod padding 2 ltac:(lia)).
    pose proof (Z.mod_pos_bound padding 2 ltac:(lia)). lia. }
  split; [reflexivity|]. split; [lia|].
  rewrite !Nat2Z.inj_add, !Z2Nat.id by lia. fold k. unfold padding. lia.
Qed.

(** a character outside ASCII is measured as JavaScript measures it: the
    check mark of the log lines is three bytes and one unit, a character
    beyond the basic plane four bytes and two units *)
Example center_check_mark :
  String.length "✓" = 3%nat /\ js_length "✓" = 1%nat
  /\ center "✓" 3 = " ✓ "
  /\ js_length "𝄞" = 2%nat /\ center "𝄞" 3 = "𝄞 ".
Proof. repeat split. Qed.

(** ** Running the build script *)

Section ScriptFacts.
Variable N : Node.

Lemma execs_app (t u : list event) : execs (t ++ u) = (execs t ++ execs u)%list.
Proof. unfold execs. apply flat_map_app. Qed.

(** the info command is none of the others *)
Lemma infoCmd_neq_others r :
  (forall a b, compileCmd a b <> infoCmd r)
  /\ (forall a, newPtauCmd a <> infoCmd r)
  /\ (forall a, contributePtauCmd a <> infoCmd r)
  /\ (forall a, preparePtauCmd a <> infoCmd r)
  /\ (forall a b c, setupCmd a b c <> infoCmd r)
  /\ (forall a b, exportVkeyCmd a b <> infoCmd r).
Proof.
  unfold compileCmd, infoCmd, newPtauCmd, contributePtauCmd, preparePtauCmd,
    setupCmd, exportVkeyCmd.
  repeat split; intros; simpl; discriminate.
Qed.

End ScriptFacts.

(** ** Running one build *)

Section CompileFacts.
Variable N : Node.

Ltac run_script :=
  repeat first
    [ progress cbn [bind ret emit log exec ensureDir try_execSync
                    fs_existsSync fs_mkdirSync fs_renameSync fs_readdirSync
                    world trace fst snd negb]
    | match goal with
      | |- context [existsSync N ?p ?w] =>
          destruct (existsSync N p w) eqn:?
      | |- context [execSync N ?c ?w] =>
          let ok := fresh "ok" in
          destruct (execSync N c w) as [ok ?] eqn:?; destruct ok
      | |- context [mkdirSync N ?d ?w] =>
          destruct (mkdirSync N d w) eqn:?
      | |- context [renameSync N ?a ?b ?w] =>
          destruct (renameSync N a b w) eqn:?
      end ].

Ltac trace_delta :=
  repeat rewrite <- app_assoc; cbn [app]; eexists; split; [reflexivity|];
  cbn [execs flat_map app].

Ltac not_info :=
  unfold compileCmd, infoCmd, newPtauCmd, contributePtauCmd, preparePtauCmd,
    setupCmd, exportVkeyCmd; simpl; discriminate.

Ltac failed_run :=
  first
    [ left; reflexivity
    | right;
      (exists true + exists false); (exists true + exists false);
      match goal with
      | |- exists pre c rest, ?L = _ /\ _ =>
          exists (removelast L), (fst (last L ("", true)))
      end;
      eexists; cbn [removelast last fst app];
      split; [reflexivity|split; [reflexivity|not_info]] ].

Lemma compileCircuit_cases name file st :
  match compileCircuit N name file st with
  | (Some true, st') =>
      exists delta, trace st' = (trace st ++ delta)%list
      /\ exists new_ptau info_ok,
           execs delta = successful_run N name file new_ptau info_ok
  | (Some false, st') =>
      exists delta, trace st' = (trace st ++ delta)%list
      /\ (execs delta = []
          \/ exists new_ptau info_ok pre c rest,
               execs delta = (pre ++ [(c, false)])%list
               /\ successful_run N name file new_ptau info_ok
                  = (pre ++ (c, true) :: rest)%list
               /\ c <> infoCmd (r1csPath N name))
  | (None, st') =>
      (exists w, mkdirSync N (outputDir N name) w = None)
      \/ (exists w, renameSync N (ptauPath N ++ ".tmp") (ptauPath N) w = None)
  end.
Proof.
  unfold compileCircuit, compileCircuit_ptau, compileCircuit_keys, exec,
    ensureDir, log, emit, try_execSync, fs_existsSync, fs_mkdirSync,
    fs_renameSync, bind, ret.
  run_script.
  all: try (first [left; eexists; eassumption | right; eexists; eassumption]).
  all: trace_delta.
  all: try ((exists true + exists false); (exists true + exists false);
            reflexivity).
  all: failed_run.
Qed.

(** the same run, followed in the worlds it goes through: the program
    and the statement are run together, a call at a time, innermost
    first, so that both see one outcome of each call *)
Ltac settled w :=
  lazymatch w with
  | context [execSync N _ _] => fail
  | _ => idtac
  end.

Ltac run_both :=
  repeat first
    [ progress cbn [bind ret emit log exec ensureDir try_execSync
                    fs_existsSync fs_mkdirSync fs_renameSync fs_readdirSync
                    world trace fst snd negb]
    | match goal with
      | H : execSync N ?c ?w = _ |- context [execSync N ?c ?w] => rewrite H
      | H : existsSync N ?p ?w = _ |- context [existsSync N ?p ?w] =>
          rewrite H
      | H : mkdirSync N ?d ?w = _ |- context [mkdirSync N ?d ?w] => rewrite H
      | H : renameSync N ?a ?b ?w = _ |- context [renameSync N ?a ?b ?w] =>
          rewrite H
      end
    | match goal with
      | |- context [execSync N ?c ?w] =>
          settled w;
          let ok := fresh "ok" in
          destruct (execSync N c w) as [ok ?] eqn:?; destruct ok
      | |- context [existsSync N ?p ?w] =>
          settled w; destruct (existsSync N p w) eqn:?
      | |- context [mkdirSync N ?d ?w] =>
          settled w; destruct (mkdirSync N d w) eqn:?
      | |- context [renameSync N ?a ?b ?w] =>
          settled w; destruct (renameSync N a b w) eqn:?
      end ].

Ltac stopped_run :=
  match goal with
  | |- exists pre c rest, ?L = _ /\ _ =>
      exists (removelast L), (fst (last L ("", true)))
  end;
  eexists; cbn [removelast last fst app];
  split; [reflexivity|split; [reflexivity|not_info]].

(** a build that returns has the output directory, and what it ran is
    decided by the world: by the circuit file being there, by the
    outcome of [r1cs info], and by the ptau file being there when
    [r1cs info] is over *)
Lemma compileCircuit_run name file st :
  match ensured N (outputDir N name) (world st) with
  | None => fst (compileCircuit N name file st) = None
  | Some w1 =>
      let found := existsSync N (circuitPath N file) w1 in
      let compiled :=
        execSync N (compileCmd (circuitPath N file) (outputDir N name)) w1 in
      let info := execSync N (infoCmd (r1csPath N name)) (snd compiled) in
      let new_ptau := negb (existsSync N (ptauPath N) (snd info)) in
      match compileCircuit N name file st with
      | (Some true, st') =>
          found = true /\ fst compiled = true
          /\ exists delta, trace st' = (trace st ++ delta)%list
             /\ execs delta = successful_run N name file new_ptau (fst info)
      | (Some false, st') =>
          exists delta, trace st' = (trace st ++ delta)%list
          /\ if found
             then exists pre c rest,
                    execs delta = (pre ++ [(c, false)])%list
                    /\ successful_run N name file new_ptau (fst info)
                       = (pre ++ (c, true) :: rest)%list
                    /\ c <> infoCmd (r1csPath N name)
             else execs delta = []
      | (None, st') => True
      end
  end.
Proof.
  unfold ensured, successful_run, circuitPath, r1csPath, zkeyPath, vkeyPath,
    ptauPath, outputDir.
  unfold compileCircuit, compileCircuit_ptau, compileCircuit_keys, exec,
    ensureDir, log, emit, try_execSync, fs_existsSync, fs_mkdirSync,
    fs_renameSync, bind, ret.
  cbv zeta.
  run_both.
  all: try reflexivity.
  all: try exact I.
  all: try (split; [reflexivity|split; [reflexivity|]]).
  all: trace_delta.
  all: try reflexivity.
  all: stopped_run.
Qed.

(** every step only adds to the trace *)
Lemma log_each_trace cs st :
  exists delta, log_each N cs st
                = (Some tt, {| world := world st;
                               trace := (trace st ++ delta)%list |})
                /\ execs delta = [].
Proof.
  revert st. induction cs as [|[name file] cs IH]; intros st.
  - exists []. rewrite app_nil_r. destruct st. split; reflexivity.
  - cbn [log_each]. unfold bind, log, emit. cbn [world trace].
    destruct (IH {| world := world st;
                    trace := (trace st ++
                      [Log (colors "cyan" ++ ("  - " ++ name) ++ colors "reset")])%list |})
      as [delta [E Hd]].
    rewrite E. cbn [world trace]. rewrite <- app_assoc.
    eexists. split; [reflexivity|]. rewrite execs_app, Hd. reflexivity.
Qed.

(** the loop of [main]: the count grows by one per build that goes
    through, and the export command of each of them is in the trace *)
Lemma compile_each_spec cs k st k' st' :
  compile_each N cs k st = (Some k', st') ->
  exists delta, trace st' = (trace st ++ delta)%list
  /\ (k <= k' <= k + List.length cs)%nat
  /\ (k' = k + List.length cs ->
      forall name file, In (name, file) cs ->
        In (exportVkeyCmd (zkeyPath N name) (vkeyPath N name), true)
           (execs delta))%nat.
Proof.
  revert k st. induction cs as [|[name file] cs IH]; intros k st H.
  - cbn [compile_each] in H. unfold ret in H. injection H as <- <-.
    exists []. rewrite app_nil_r. cbn [List.length].
    split; [reflexivity|]. split; [lia|]. intros _ ? ? [].
  - cbn [compile_each] in H. unfold bind in H.
    pose proof (compileCircuit_cases name file st) as Hc.
    destruct (compileCircuit N name file st) as [[[|]|] st1];
      [| |discriminate].
    + destruct Hc as [d1 [E1 [np [io Hrun]]]].
      apply IH in H. destruct H as [d2 [E2 [Hk Hall]]].
      exists (d1 ++ d2)%list. rewrite E2, E1, app_assoc.
      split; [reflexivity|]. cbn [List.length]. split; [lia|].
      intros Hfull n f [Heq|Hin].
      * injection Heq as <- <-. rewrite execs_app, Hrun.
        apply in_or_app. left. unfold successful_run.
        apply in_or_app. right. apply in_or_app. right.
        right. left. reflexivity.
      * rewrite execs_app. apply in_or_app. right.
        eapply Hall; [lia|eassumption].
    + destruct Hc as [d1 [E1 _]].
      apply IH in H. destruct H as [d2 [E2 [Hk Hall]]].
      exists (d1 ++ d2)%list. rewrite E2, E1, app_assoc.
      split; [reflexivity|]. cbn [List.length]. split; [lia|].
      intros Hfull. lia.
Qed.

End CompileFacts.

Section MainFacts.
Variable N : Node.

Ltac run_script :=
  repeat first
    [ progress cbn [bind ret emit log exec ensureDir try_execSync
                    fs_existsSync fs_mkdirSync fs_renameSync fs_readdirSync
                    world trace fst snd negb]
    | match goal with
      | |- context [existsSync N ?p ?w] =>
          destruct (existsSync N p w) eqn:?
      | |- context [mkdirSync N ?d ?w] =>
          destruct (mkdirSync N d w) eqn:?
      end ].

Lemma main_cases st :
  match main_script N st with
  | (Some code, st') =>
      exists delta w files,
        trace st' = (trace st ++ delta)%list
        /\ readdirSync N (CIRCUITS_DIR N) w = Some files
        /\ ((circuits_of N files = [] /\ code = 1 /\ execs delta = [])
            \/ (circuits_of N files <> []
                /\ (code = 1
                    \/ (code = 0
                        /\ forall name file, In (name, file) (circuits_of N files) ->
                             In (exportVkeyCmd (zkeyPath N name) (vkeyPath N name),
                                 true) (execs delta)))))
  | (None, _) => True
  end.
Proof.
  unfold main_script.
  unfold ensureDir, log, emit, fs_existsSync, fs_mkdirSync, fs_readdirSync,
    bind, ret.
  run_script; try exact I.
  all: match goal with
       | |- context [readdirSync N ?d ?w] =>
           destruct (readdirSync N d w) as [files|] eqn:Hdir; [|exact I]
       end.
  all: fold (circuits_of N files).
  all: destruct (Nat.eqb_spec (List.length (circuits_of N files)) 0) as [He|Hne].
  all: cbn [world trace].
  all: try (repeat rewrite <- app_assoc; cbn [app];
            eexists; do 2 eexists; split; [reflexivity|];
            split; [eassumption|]; left;
            split; [apply length_zero_iff_nil; assumption|];
            split; reflexivity).
  all: match goal with
       | |- context [log_each N ?cs ?s] =>
           destruct (log_each_trace N cs s) as [d1 [E1 Hd1]]; rewrite E1
       end.
  all: cbn [world trace].
  all: match goal with
       | |- context [compile_each N ?cs ?k ?s] =>
           destruct (compile_each N cs k s) as [[k'|] st3] eqn:Hloop;
             [|exact I]
       end.
  all: apply compile_each_spec in Hloop; destruct Hloop as [d2 [E2 [Hk Hall]]].
  all: cbn [world trace] in *; rewrite E2.
  all: repeat rewrite <- app_assoc; cbn [app].
  all: eexists; do 2 eexists; split; [reflexivity|].
  all: split; [eassumption|]; right.
  all: split; [intros Hnil; rewrite Hnil in Hne; apply Hne; reflexivity|].
  all: destruct (Nat.eqb_spec k' (List.length (circuits_of N files)));
         [right; split; [reflexivity|]|left; reflexivity].
  all: intros name file Hin.
  all: repeat first
         [ progress change (execs (Log ?l :: ?t)) with (execs t)
         | progress change (execs (Mkdir ?l :: ?t)) with (execs t) ].
  all: rewrite !execs_app, Hd1; cbn [app].
  all: apply in_or_app; left; eapply Hall; [lia|eassumption].
Qed.
End MainFacts.

(** X7. [String.prototype.center] puts the string between blanks, as many
    on the left as on the right or one less; the result has the width
    asked for, or the length of the string when that is more, and then it
    is the string itself. Lengths are those of JavaScript, in UTF-16 code
    units. *)
Theorem center_pads_to_width (this : string) (width : Z) :
  (exists left right : nat,
     center this width =
       repeat_string " " left ++ this ++ repeat_string " " right
     /\ (left <= right <= left + 1)%nat)
  /\ Z.of_nat (js_length (center this width))
     = Z.max width (Z.of_nat (js_length this))
  /\ (width <= Z.of_nat (js_length this) -> center this width = this).
Proof.
  destruct (center_spec this width) as [l [r [E [Hlr Hlen]]]].
  split; [exists l, r; auto|]. split.
  - rewrite E, !js_length_append, !js_length_blanks. rewrite <- Hlen. lia.
  - intros Hw. assert (l = 0 /\ r = 0)%nat as [-> ->] by lia.
    rewrite E. simpl. apply string_append_nil_r.
Qed.

(** X8. A build that [compileCircuit] reports as done had its output
    directory and found the circuit file, and has run the whole pipeline
    and nothing else: the circom compiler, [r1cs info], the three steps
    of the ceremony exactly when there was no ptau file once [r1cs info]
    was over, the Groth16 setup and the export of the verification key,
    in this order, all of them with success except [r1cs info], whose
    outcome is the one the run records. *)
Theorem compileCircuit_done_ran_pipeline (N : Node) (name file : string)
  (st st' : state N) :
  compileCircuit N name file st = (Some true, st') ->
  exists w1, ensured N (outputDir N name) (world st) = Some w1
  /\ existsSync N (circuitPath N file) w1 = true
  /\ let compiled :=
       execSync N (compileCmd (circuitPath N file) (outputDir N name)) w1 in
     let info := execSync N (infoCmd (r1csPath N name)) (snd compiled) in
     let new_ptau := negb (existsSync N (ptauPath N) (snd info)) in
     fst compiled = true
     /\ exists delta, trace st' = (trace st ++ delta)%list
        /\ execs delta = successful_run N name file new_ptau (fst info).
Proof.
  intros H. pose proof (compileCircuit_run N name file st) as Hc.
  destruct (ensured N (outputDir N name) (world st)) as [w1|];
    [|rewrite H in Hc; discriminate Hc].
  rewrite H in Hc. cbv zeta in Hc. destruct Hc as [Hfound Hrun].
  exists w1. split; [reflexivity|]. split; [exact Hfound|]. exact Hrun.
Qed.

Lemma compileCircuit_done_ran_pipeline_witness :
  compileCircuit node_ok "range_proof" "range_proof.circom" start_ok
  = (Some true, built_ok)
  /\ exists w1,
       ensured node_ok (outputDir node_ok "range_proof") (world start_ok)
       = Some w1
       /\ existsSync node_ok (circuitPath node_ok "range_proof.circom") w1
          = true
       /\ let compiled :=
            execSync node_ok
              (compileCmd (circuitPath node_ok "range_proof.circom")
                 (outputDir node_ok "range_proof")) w1 in
          let info :=
            execSync node_ok (infoCmd (r1csPath node_ok "range_proof"))
              (snd compiled) in
          let new_ptau :=
            negb (existsSync node_ok (ptauPath node_ok) (snd info)) in
          fst compiled = true
          /\ exists delta, trace built_ok = (trace start_ok ++ delta)%list
             /\ execs delta
                = successful_run node_ok "range_proof" "range_proof.circom"
                    new_ptau (fst info).
Proof.
  assert (h1 : compileCircuit node_ok "range_proof" "range_proof.circom"
                 start_ok = (Some true, built_ok))
    by (vm_compute; reflexivity).
  exact
    (conj h1
       (compileCircuit_done_ran_pipeline node_ok "range_proof"
          "range_proof.circom" start_ok built_ok h1)).
Defined.

(** X9. A build that [compileCircuit] reports as failed had its output
    directory, and then: when the circuit file is not there it has run
    no command at all; when it is there it has followed the pipeline,
    the one of a build that goes through in the same worlds, up to a
    command that failed, which is the last one it ran and is not
    [r1cs info]. A failure of [r1cs info] stops nothing, any other
    failure stops the build at once. *)
Theorem compileCircuit_failed_at_last_command (N : Node) (name file : string)
  (st st' : state N) :
  compileCircuit N name file st = (Some false, st') ->
  exists w1, ensured N (outputDir N name) (world st) = Some w1
  /\ let compiled :=
       execSync N (compileCmd (circuitPath N file) (outputDir N name)) w1 in
     let info := execSync N (infoCmd (r1csPath N name)) (snd compiled) in
     let new_ptau := negb (existsSync N (ptauPath N) (snd info)) in
     exists delta, trace st' = (trace st ++ delta)%list
     /\ if existsSync N (circuitPath N file) w1
        then exists pre c rest,
               execs delta = (pre ++ [(c, false)])%list
               /\ successful_run N name file new_ptau (fst info)
                  = (pre ++ (c, true) :: rest)%list
               /\ c <> infoCmd (r1csPath N name)
        else execs delta = [].
Proof.
  intros H. pose proof (compileCircuit_run N name file st) as Hc.
  destruct (ensured N (outputDir N name) (world st)) as [w1|];
    [|rewrite H in Hc; discriminate Hc].
  rewrite H in Hc. exists w1. split; [reflexivity|]. exact Hc.
Qed.

Lemma compileCircuit_failed_at_last_command_witness :
  compileCircuit node_failing "range_proof" "range_proof.circom" start_failing
  = (Some false, built_failing)
  /\ exists w1,
       ensured node_failing (outputDir node_failing "range_proof")
         (world start_failing) = Some w1
       /\ let compiled :=
            execSync node_failing
              (compileCmd (circuitPath node_failing "range_proof.circom")
                 (outputDir node_failing "range_proof")) w1 in
          let info :=
            execSync node_failing
              (infoCmd (r1csPath node_failing "range_proof"))
              (snd compiled) in
          let new_ptau :=
            negb (existsSync node_failing (ptauPath node_failing)
                    (snd info)) in
          exists delta,
            trace built_failing = (trace start_failing ++ delta)%list
            /\ if existsSync node_failing
                    (circuitPath node_failing "range_proof.circom") w1
               then exists pre c rest,
                      execs delta = (pre ++ [(c, false)])%list
                      /\ successful_run node_failing "range_proof"
                           "range_proof.circom" new_ptau (fst info)
                         = (pre ++ (c, true) :: rest)%list
                      /\ c <> infoCmd (r1csPath node_failing "range_proof")
               else execs delta = [].
Proof.
  assert (h1 : compileCircuit node_failing "range_proof" "range_proof.circom"
                 start_failing = (Some false, built_failing))
    by (vm_compute; reflexivity).
  exact
    (conj h1
       (compileCircuit_failed_at_last_command node_failing "range_proof"
          "range_proof.circom" start_failing built_failing h1)).
Defined.


(** X10. [compileCircuit] throws only when the file system does: the
    creation of the output directory, or the renaming of the temporary
    ptau file. No command that fails makes it throw. *)
Theorem compileCircuit_throws_with_fs (N : Node) (name file : string)
  (st st' : state N) :
  compileCircuit N name file st = (None, st') ->
  (exists w, mkdirSync N (outputDir N name) w = None)
  \/ (exists w, renameSync N (ptauPath N ++ ".tmp") (ptauPath N) w = None).
Proof.
  intros H. pose proof (compileCircuit_cases N name file st) as Hc.
  rewrite H in Hc. exact Hc.
Qed.

Lemma compileCircuit_throws_with_fs_witness :
  (compileCircuit node_broken "range_proof" "range_proof.circom" start_broken = (None, built_broken))
  /\ ((exists w, mkdirSync node_broken (outputDir node_broken "range_proof") w = None)
      \/ (exists w, renameSync node_broken (ptauPath node_broken ++ ".tmp") (ptauPath node_broken) w = None)).
Proof.
  assert (h1 : compileCircuit node_broken "range_proof" "range_proof.circom" start_broken
               = (None, built_broken))
    by (vm_compute; reflexivity).
  exact
    (conj h1
       (compileCircuit_throws_with_fs node_broken "range_proof" "range_proof.circom"
          start_broken built_broken h1)).
Defined.


(** X11. [main] exits with 0 or 1; with 0 only when the listing of the
    circuits directory holds a file in [.circom] and the verification key
    of every such file was exported with success. *)
Theorem main_exit_code (N : Node) (st st' : state N) (code : Z) :
  main_script N st = (Some code, st') ->
  (code = 0 \/ code = 1)
  /\ (code = 0 ->
      exists delta w files,
        trace st' = (trace st ++ delta)%list
        /\ readdirSync N (CIRCUITS_DIR N) w = Some files
        /\ (exists file, In file files /\ endsWith file ".circom" = true)
        /\ forall file, In file files -> endsWith file ".circom" = true ->
             let name := path_basename N file ".circom" in
             In (exportVkeyCmd (zkeyPath N name) (vkeyPath N name), true)
                (execs delta)).
Proof.
  intros H. pose proof (main_cases N st) as Hc. rewrite H in Hc.
  destruct Hc as [delta [w [files [Et [Hdir Hcases]]]]].
  split.
  - destruct Hcases as [[_ [-> _]]|[_ [->|[-> _]]]]; auto.
  - intros ->. destruct Hcases as [[_ [Habs _]]|[Hne [Habs|[_ Hall]]]];
      try discriminate.
    exists delta, w, files. split; [assumption|]. split; [assumption|]. split.
    + unfold circuits_of in Hne.
      destruct (filter (fun f => endsWith f ".circom") files) as [|f l] eqn:Ef;
        [exfalso; apply Hne; reflexivity|].
      assert (Hin : In f (filter (fun f => endsWith f ".circom") files))
        by (rewrite Ef; left; reflexivity).
      apply filter_In in Hin. exists f. exact Hin.
    + intros file Hin Hend name. apply (Hall name file).
      unfold circuits_of. apply in_map_iff. exists file.
      split; [reflexivity|]. apply filter_In. auto.
Qed.

Lemma main_exit_code_witness :
  (main_script node_ok start_ok = (Some 0, ended_ok))
  /\ ((0 = 0 \/ 0 = 1)
      /\ (0 = 0 ->
          exists delta w files,
            trace ended_ok = (trace start_ok ++ delta)%list
            /\ readdirSync node_ok (CIRCUITS_DIR node_ok) w = Some files
            /\ (exists file, In file files /\ endsWith file ".circom" = true)
            /\ forall file, In file files -> endsWith file ".circom" = true ->
                 let name := path_basename node_ok file ".circom" in
                 In (exportVkeyCmd (zkeyPath node_ok name) (vkeyPath node_ok name), true)
                    (execs delta))).
Proof.
  assert (h1 : main_script node_ok start_ok = (Some 0, ended_ok))
    by (vm_compute; reflexivity).
  exact (conj h1 (main_exit_code node_ok start_ok ended_ok 0 h1)).
Defined.


(** X12. When no file of the circuits directory is named in [.circom],
    [main] runs no command and, unless the file system throws, exits
    with 1. *)
Theorem main_without_circuits (N : Node) (st st' : state N) (code : Z) :
  (forall w files, readdirSync N (CIRCUITS_DIR N) w = Some files ->
     forall file pre, In file files -> file <> pre ++ ".circom") ->
  main_script N st = (Some code, st') ->
  code = 1
  /\ exists delta, trace st' = (trace st ++ delta)%list /\ execs delta = [].
Proof.
  intros Hnone H. pose proof (main_cases N st) as Hc. rewrite H in Hc.
  destruct Hc as [delta [w [files [Et [Hdir Hcases]]]]].
  destruct Hcases as [[_ [-> Hex]]|[Hne _]].
  - split; [reflexivity|]. exists delta. auto.
  - exfalso. unfold circuits_of in Hne.
    destruct (filter (fun f => endsWith f ".circom") files) as [|f l] eqn:Ef;
      [apply Hne; reflexivity|].
    assert (Hin : In f (filter (fun f => endsWith f ".circom") files))
      by (rewrite Ef; left; reflexivity).
    apply filter_In in Hin. destruct Hin as [Hin Hend].
    apply endsWith_iff in Hend. destruct Hend as [pre Hpre].
    exact (Hnone w files Hdir f pre Hin Hpre).
Qed.

Lemma main_without_circuits_witness :
  (forall w files, readdirSync node_empty (CIRCUITS_DIR node_empty) w = Some files ->
     forall file pre, In file files -> file <> pre ++ ".circom")
  /\ (main_script node_empty start_empty = (Some 1, ended_empty))
  /\ (1 = 1
      /\ exists delta, trace ended_empty = (trace start_empty ++ delta)%list
                       /\ execs delta = []).
Proof.
  assert (h1 : forall w files, readdirSync node_empty (CIRCUITS_DIR node_empty) w = Some files ->
                 forall file pre, In file files -> file <> pre ++ ".circom").
  { intros w files Hdir file pre Hin Heq.
    injection Hdir as <-. destruct Hin as [<-|[]].
    assert (Hend : endsWith "README.md" ".circom" = true)
      by (apply endsWith_iff; exists pre; exact Heq).
    vm_compute in Hend. discriminate Hend. }
  assert (h2 : main_script node_empty start_empty = (Some 1, ended_empty))
    by (vm_compute; reflexivity).
  exact (conj h1 (conj h2 (main_without_circuits node_empty start_empty ended_empty 1 h1 h2))).
Defined.

End ScriptFacts.
